(** * Verification of the report-generation and narration pipeline

    Shallow embedding of the parts of the health-report web app that carry
    real invariants:
    - [Sources]: grounding-citation deduplication in [generateHealthReport]
      (services/geminiService.ts);
    - [Narration]: text preparation in [generateAudioSummary];
    - [Pcm]: [atob] followed by [decodePCM] (components/ReportDashboard.tsx);
    - [JsonClean]: [cleanJsonString] and the JSON parse step;
    - [Orchestrator]: [handleFormSubmit], [handleRetry] and
      [handleEditProfile] (App.tsx) over a timeline of promise settlements;
    - [Playback]: the play/pause state machine of [ReportDashboard]
      ([handlePlayAudio], [playBuffer], the auto-stop timer);
    - [Dashboard]: [formatTime] and [calculateMetrics] of [ReportDashboard]. *)

From Stdlib Require Import String Ascii List Bool Arith Lia ZArith QArith Qround Qminmax Lqa Sorted.
Import ListNotations.
Open Scope nat_scope.

(* ------------------------------------------------------------------ *)
(** ** Grounding sources *)

Module Sources.

Local Open Scope string_scope.

(** [interface Source { title: string; uri: string; }] *)
Record Source := mkSource { title : string; uri : string }.

(** [chunk.web] of a grounding chunk: both fields optional. *)
Record Web := mkWeb { web_title : option string; web_uri : option string }.
Record Chunk := mkChunk { web : option Web }.

(** JavaScript [x || d] on an optional string: [undefined] and [""] are falsy. *)
Definition or_default (o : option string) (d : string) : string :=
  match o with
  | Some s => if String.eqb s "" then d else s
  | None => d
  end.

(** [chunks.map(chunk => ({ title: chunk.web?.title || "Source",
                            uri: chunk.web?.uri || "" }))] *)
Definition toSource (c : Chunk) : Source :=
  mkSource (or_default (match web c with Some w => web_title w | None => None end) "Source")
           (or_default (match web c with Some w => web_uri w | None => None end) "").

(** [.filter(source => source.uri !== "")] *)
Definition sources (chunks : list Chunk) : list Source :=
  filter (fun s => negb (String.eqb (uri s) "")) (map toSource chunks).

(** A JavaScript [Map<string, Source>] as an insertion-ordered association
    list. [set] on a present key replaces the value in place (the key keeps
    its position); on a new key it appends. *)
Definition JsMap := list (string * Source).

Definition map_has (k : string) (m : JsMap) : bool :=
  existsb (fun kv => String.eqb (fst kv) k) m.

Definition map_set (k : string) (v : Source) (m : JsMap) : JsMap :=
  if map_has k m
  then map (fun kv => if String.eqb (fst kv) k then (k, v) else kv) m
  else app m [(k, v)].

(** [sources.forEach(s => uniqueSourcesMap.set(s.uri, s));
     Array.from(uniqueSourcesMap.values())] *)
Definition dedupSources (chunks : list Chunk) : list Source :=
  map snd (fold_left (fun m s => map_set (uri s) s m) (sources chunks) []).

(** The last source of [l] whose URI is [u]. *)
Definition lastWith (u : string) (l : list Source) : option Source :=
  fold_left (fun acc s => if String.eqb (uri s) u then Some s else acc) l None.

(** The first source of [l] whose URI is [u]. *)
Definition firstWith (u : string) (l : list Source) : option Source :=
  find (fun s => String.eqb (uri s) u) l.

(** Position of the first source of [l] with URI [u] ([length l] if none). *)
Fixpoint firstIndex (u : string) (l : list Source) : nat :=
  match l with
  | [] => 0
  | s :: r => if String.eqb (uri s) u then 0 else S (firstIndex u r)
  end.

(** The keys of [m] are ordered by the position of their first source in [p]. *)
Definition order_inv (m : JsMap) (p : list Source) : Prop :=
  StronglySorted (fun u v => firstIndex u p < firstIndex v p) (map fst m).

End Sources.

(* ------------------------------------------------------------------ *)
(** ** Narration text *)

Module Narration.

Local Open Scope string_scope.

Definition is_md (c : ascii) : bool :=
  (Ascii.eqb c "*"%char || Ascii.eqb c "#"%char || Ascii.eqb c "_"%char)%bool.

(** [text.replace(/[*#_]/g, '')] *)
Fixpoint stripMd (s : string) : string :=
  match s with
  | EmptyString => EmptyString
  | String c s' => if is_md c then stripMd s' else String c (stripMd s')
  end.

(** [cleanText.length > 600 ? cleanText.substring(0, 600) + "." : cleanText]
    (strings are modelled as 8-bit characters, one code unit each). *)
Definition safeText (text : string) : string :=
  let cleanText := stripMd text in
  if (600 <? String.length cleanText)%nat
  then substring 0 600 cleanText ++ "."
  else cleanText.

Fixpoint no_md (s : string) : bool :=
  match s with
  | EmptyString => true
  | String c s' => negb (is_md c) && no_md s'
  end.

Fixpoint rep (n : nat) (c : ascii) : string :=
  match n with 0 => EmptyString | S n' => String c (rep n' c) end.

End Narration.

(* ------------------------------------------------------------------ *)
(** ** PCM decoding *)

Module Pcm.

Local Open Scope Z_scope.

(** The base64 alphabet of [atob]. *)
Definition b64val (c : ascii) : option Z :=
  let n := Z.of_nat (nat_of_ascii c) in
  if (65 <=? n) && (n <=? 90) then Some (n - 65)
  else if (97 <=? n) && (n <=? 122) then Some (n - 71)
  else if (48 <=? n) && (n <=? 57) then Some (n + 4)
  else if n =? 43 then Some 62
  else if n =? 47 then Some 63
  else None.

(** ASCII whitespace of the forgiving-base64 algorithm: TAB, LF, FF, CR, SPACE. *)
Definition is_ascii_ws (c : ascii) : bool :=
  let n := nat_of_ascii c in
  (Nat.eqb n 9 || Nat.eqb n 10 || Nat.eqb n 12 || Nat.eqb n 13 || Nat.eqb n 32)%bool.

(** "If data's length divides by 4 leaving no remainder, then: if data ends
    with one or two U+003D (=) code points, then remove them from data." *)
Definition strip_padding (cs : list ascii) : list ascii :=
  if Nat.eqb (Nat.modulo (length cs) 4) 0 then
    match rev cs with
    | "="%char :: "="%char :: r => rev r
    | "="%char :: r => rev r
    | _ => cs
    end
  else cs.

Fixpoint all_values (cs : list ascii) : option (list Z) :=
  match cs with
  | [] => Some []
  | c :: cs' =>
      match b64val c, all_values cs' with
      | Some v, Some vs => Some (v :: vs)
      | _, _ => None
      end
  end.

(** The 6-bit groups are accumulated in a buffer; every 24 bits give three
    bytes; a final 12-bit (resp. 18-bit) buffer gives one (resp. two) bytes,
    the low 4 (resp. 2) bits being discarded. *)
Fixpoint decode_groups (vs : list Z) : list Z :=
  match vs with
  | a :: b :: c :: d :: rest =>
      (a * 4 + b / 16) :: ((b mod 16) * 16 + c / 4) :: ((c mod 4) * 64 + d)
        :: decode_groups rest
  | [a; b; c] => [a * 4 + b / 16; (b mod 16) * 16 + c / 4]
  | [a; b] => [a * 4 + b / 16]
  | _ => []
  end.

(** [atob]: forgiving-base64 decode; [None] is the thrown
    [InvalidCharacterError]. The result is the list of char codes of the
    returned binary string. *)
Definition atob (s : string) : option (list Z) :=
  let cs := filter (fun c => negb (is_ascii_ws c)) (list_ascii_of_string s) in
  let cs := strip_padding cs in
  if Nat.eqb (Nat.modulo (length cs) 4) 1 then None
  else option_map decode_groups (all_values cs).

(** One element of [new Int16Array(bytes.buffer, ...)]: two bytes read in
    the platform byte order, little-endian on the browsers' platforms. *)
Definition le16 (b0 b1 : Z) : Z :=
  let u := b0 + 256 * b1 in
  if 32768 <=? u then u - 65536 else u.

Fixpoint int16_view (bytes : list Z) : list Z :=
  match bytes with
  | b0 :: b1 :: rest => le16 b0 b1 :: int16_view rest
  | _ => []
  end.

(** [ctx.createBuffer(numChannels, length, sampleRate)] with its channel 0. *)
Record AudioBuffer := mkAudioBuffer {
  numberOfChannels : nat;
  sampleRate : Z;
  channel0 : list Q
}.

Definition buffer_length (b : AudioBuffer) : nat := length (channel0 b).

Definition buffer_duration (b : AudioBuffer) : Q :=
  Qmake (Z.of_nat (buffer_length b)) (Z.to_pos (sampleRate b)).

(** The body of [decodePCM] after [atob]: [bytes[i] = charCodeAt(i)]
    stores modulo 256 in a [Uint8Array]; an odd trailing byte is dropped by
    [effectiveLen]; every [int16Data[i] / 32768.0] is stored in the
    [Float32Array] channel. A 16-bit integer scaled by 2^-15 is exactly
    representable in single precision, so the stored value is the rational
    [int16Data[i] / 32768]. [ctx.createBuffer(numChannels, int16Data.length,
    sampleRate)] throws a NotSupportedError for a length of 0: [None]. *)
Definition pcmFromCodes (codes : list Z) : option AudioBuffer :=
  let bytes := map (fun c => c mod 256) codes in
  let len := length bytes in
  let effectiveLen := if Nat.odd len then (len - 1)%nat else len in
  let int16Data := int16_view (firstn effectiveLen bytes) in
  if Nat.eqb (length int16Data) 0 then None
  else Some (mkAudioBuffer 1 24000 (map (fun x => Qmake x 32768) int16Data)).

(** [decodePCM(base64Data, ctx)]; [None] when [atob] or [createBuffer]
    throws. *)
Definition decodePCM (base64Data : string) : option AudioBuffer :=
  match atob base64Data with
  | Some codes => pcmFromCodes codes
  | None => None
  end.

(** Re-encoding a sample: [Math.round(x * 32768)]. *)
Definition reencode (x : Q) : Z := Qfloor (x * inject_Z 32768 + (1 # 2)).

(** The signed 16-bit little-endian values of consecutive byte pairs. *)
Definition samples16 (bytes : list Z) : list Z :=
  map (fun i => le16 (nth (2 * i) bytes 0) (nth (2 * i + 1) bytes 0))
      (seq 0 (length bytes / 2)).

End Pcm.

(* ------------------------------------------------------------------ *)
(** ** Cleaning of the full-report response *)

Module JsonClean.

(** [str.replace(/```json/g, '')] *)
Fixpoint removeJsonFence (s : list ascii) : list ascii :=
  match s with
  | "`"%char :: "`"%char :: "`"%char :: "j"%char :: "s"%char :: "o"%char :: "n"%char :: rest =>
      removeJsonFence rest
  | c :: rest => c :: removeJsonFence rest
  | [] => []
  end.

(** [.replace(/```/g, '')] *)
Fixpoint removeFence (s : list ascii) : list ascii :=
  match s with
  | "`"%char :: "`"%char :: "`"%char :: rest => removeFence rest
  | c :: rest => c :: removeFence rest
  | [] => []
  end.

(** White space of [String.prototype.trim] and of the regular-expression
    class [\s], restricted to 8-bit characters: TAB, LF, VT, FF, CR, SPACE
    and NO-BREAK SPACE. *)
Definition js_ws (c : ascii) : bool :=
  let n := nat_of_ascii c in
  ((9 <=? n) && (n <=? 13) || Nat.eqb n 32 || Nat.eqb n 160)%bool.

Fixpoint dropWs (s : list ascii) : list ascii :=
  match s with
  | c :: r => if js_ws c then dropWs r else s
  | [] => []
  end.

(** [.trim()] *)
Definition trim (s : list ascii) : list ascii := rev (dropWs (rev (dropWs s))).

(** [s.indexOf(c)]; [None] stands for [-1]. *)
Fixpoint indexOf (c : ascii) (s : list ascii) : option nat :=
  match s with
  | [] => None
  | d :: r => if Ascii.eqb d c then Some 0 else option_map S (indexOf c r)
  end.

(** [s.lastIndexOf(c)]; [None] stands for [-1]. *)
Fixpoint lastIndexOf (c : ascii) (s : list ascii) : option nat :=
  match s with
  | [] => None
  | d :: r =>
      match lastIndexOf c r with
      | Some i => Some (S i)
      | None => if Ascii.eqb d c then Some 0 else None
      end
  end.

(** [s.substring(a, b)]: the arguments are swapped when [a > b]; the end
    is clamped to the length. *)
Definition substring (a b : nat) (s : list ascii) : list ascii :=
  let lo := Nat.min a b in
  let hi := Nat.max a b in
  firstn (hi - lo) (skipn lo s).

(** [if (firstBrace !== -1 && lastBrace !== -1)
       cleaned = cleaned.substring(firstBrace, lastBrace + 1)] *)
Definition extractBraces (s : list ascii) : list ascii :=
  match indexOf "{"%char s, lastIndexOf "}"%char s with
  | Some firstBrace, Some lastBrace => substring firstBrace (lastBrace + 1) s
  | _, _ => s
  end.

Definition is_close (c : ascii) : bool :=
  (Ascii.eqb c "}"%char || Ascii.eqb c "]"%char)%bool.

(** Does the text start with [\s*[}\]]]? *)
Fixpoint closeAhead (s : list ascii) : bool :=
  match s with
  | [] => false
  | c :: r => if is_close c then true else if js_ws c then closeAhead r else false
  end.

(** [.replace(/,(\s*[}\]])/g, '$1')]: a match consumes a comma, white space
    and a closing bracket, and only the comma is dropped; since the consumed
    text holds no other comma, the global replacement drops exactly the
    commas whose remaining text starts with [\s*[}\]]]. *)
Fixpoint removeTrailingCommas (s : list ascii) : list ascii :=
  match s with
  | [] => []
  | c :: r =>
      if (Ascii.eqb c ","%char && closeAhead r)%bool
      then removeTrailingCommas r
      else c :: removeTrailingCommas r
  end.

Definition cleanChars (s : list ascii) : list ascii :=
  let cleaned := trim (removeFence (removeJsonFence s)) in
  let cleaned := extractBraces cleaned in
  removeTrailingCommas cleaned.

(** The text [cleanJsonString] searches for braces: fences removed, trimmed. *)
Definition trimmed (s : list ascii) : list ascii := trim (removeFence (removeJsonFence s)).

(** [cleanJsonString(str)] *)
Definition cleanJsonString (str : string) : string :=
  string_of_list_ascii (cleanChars (list_ascii_of_string str)).

(** *** Acceptance by [JSON.parse] (RFC 8259 grammar, 8-bit characters) *)

Definition dquote : ascii := "034"%char.
Definition backslash : ascii := "092"%char.

Definition json_ws (c : ascii) : bool :=
  let n := nat_of_ascii c in
  (Nat.eqb n 9 || Nat.eqb n 10 || Nat.eqb n 13 || Nat.eqb n 32)%bool.

Fixpoint skipWs (s : list ascii) : list ascii :=
  match s with
  | c :: r => if json_ws c then skipWs r else s
  | [] => []
  end.

Definition is_digit (c : ascii) : bool :=
  let n := nat_of_ascii c in ((48 <=? n) && (n <=? 57))%bool.

Definition is_hex (c : ascii) : bool :=
  let n := nat_of_ascii c in
  (is_digit c || (65 <=? n) && (n <=? 70) || (97 <=? n) && (n <=? 102))%bool.

Definition simple_escape (c : ascii) : bool :=
  (Ascii.eqb c dquote || Ascii.eqb c backslash || Ascii.eqb c "/"%char ||
   Ascii.eqb c "b"%char || Ascii.eqb c "f"%char || Ascii.eqb c "n"%char ||
   Ascii.eqb c "r"%char || Ascii.eqb c "t"%char)%bool.

(** The rest of a string literal after its opening quote. *)
Fixpoint pstring (s : list ascii) : option (list ascii) :=
  match s with
  | [] => None
  | c :: r =>
      if Ascii.eqb c dquote then Some r
      else if Ascii.eqb c backslash then
        match r with
        | d :: r' =>
            if simple_escape d then pstring r'
            else if Ascii.eqb d "u"%char then
              match r' with
              | h1 :: h2 :: h3 :: h4 :: r'' =>
                  if (is_hex h1 && is_hex h2 && is_hex h3 && is_hex h4)%bool
                  then pstring r'' else None
              | _ => None
              end
            else None
        | [] => None
        end
      else if nat_of_ascii c <? 32 then None
      else pstring r
  end.

Fixpoint skipDigits (s : list ascii) : list ascii :=
  match s with
  | c :: r => if is_digit c then skipDigits r else s
  | [] => []
  end.

(** [digit+] *)
Definition pdigits (s : list ascii) : option (list ascii) :=
  match s with
  | c :: r => if is_digit c then Some (skipDigits r) else None
  | [] => None
  end.

(** [-?] *)
Definition pminus (s : list ascii) : list ascii :=
  match s with
  | c :: r => if Ascii.eqb c "-"%char then r else s
  | [] => s
  end.

(** [0 | [1-9][0-9]*] *)
Definition pint (s : list ascii) : option (list ascii) :=
  match s with
  | c :: r =>
      if Ascii.eqb c "0"%char then Some r
      else if is_digit c then Some (skipDigits r) else None
  | [] => None
  end.

(** [(. digit+)?] *)
Definition pfrac (s : list ascii) : option (list ascii) :=
  match s with
  | c :: r => if Ascii.eqb c "."%char then pdigits r else Some s
  | [] => Some s
  end.

(** [[+-]?] *)
Definition psign (s : list ascii) : list ascii :=
  match s with
  | c :: r => if (Ascii.eqb c "+"%char || Ascii.eqb c "-"%char)%bool then r else s
  | [] => s
  end.

(** [([eE] [+-]? digit+)?] *)
Definition pexp (s : list ascii) : option (list ascii) :=
  match s with
  | c :: r =>
      if (Ascii.eqb c "e"%char || Ascii.eqb c "E"%char)%bool then pdigits (psign r)
      else Some s
  | [] => Some s
  end.

(** [-? (0 | [1-9][0-9]* ) (. digit+)? ([eE] [+-]? digit+)?] *)
Definition pnumber (s : list ascii) : option (list ascii) :=
  match pint (pminus s) with
  | None => None
  | Some r =>
      match pfrac r with
      | None => None
      | Some r => pexp r
      end
  end.

Fixpoint pvalue (fuel : nat) (s : list ascii) : option (list ascii) :=
  match fuel with
  | 0 => None
  | S f =>
      match skipWs s with
      | "{"%char :: r =>
          match skipWs r with
          | d :: r' => if Ascii.eqb d "}"%char then Some r' else pmembers f (d :: r')
          | [] => None
          end
      | "["%char :: r =>
          match skipWs r with
          | d :: r' => if Ascii.eqb d "]"%char then Some r' else pelems f (d :: r')
          | [] => None
          end
      | "t"%char :: "r"%char :: "u"%char :: "e"%char :: r => Some r
      | "f"%char :: "a"%char :: "l"%char :: "s"%char :: "e"%char :: r => Some r
      | "n"%char :: "u"%char :: "l"%char :: "l"%char :: r => Some r
      | c :: r => if Ascii.eqb c dquote then pstring r else pnumber (c :: r)
      | [] => None
      end
  end
with pelems (fuel : nat) (s : list ascii) : option (list ascii) :=
  match fuel with
  | 0 => None
  | S f =>
      match pvalue f s with
      | None => None
      | Some r =>
          match skipWs r with
          | ","%char :: r' => pelems f r'
          | "]"%char :: r' => Some r'
          | _ => None
          end
      end
  end
with pmembers (fuel : nat) (s : list ascii) : option (list ascii) :=
  match fuel with
  | 0 => None
  | S f =>
      match skipWs s with
      | c :: r =>
          if Ascii.eqb c dquote then
            match pstring r with
            | None => None
            | Some r1 =>
                match skipWs r1 with
                | ":"%char :: r2 =>
                    match pvalue f r2 with
                    | None => None
                    | Some r3 =>
                        match skipWs r3 with
                        | ","%char :: r4 => pmembers f r4
                        | "}"%char :: r4 => Some r4
                        | _ => None
                        end
                    end
                | _ => None
                end
            end
          else None
      | [] => None
      end
  end.

(** [JSON.parse] succeeds: white space, one value, white space, end of text. *)
Definition jsonParses (s : list ascii) : bool :=
  match pvalue (S (length s)) s with
  | Some r => match skipWs r with [] => true | _ => false end
  | None => false
  end.

(** *** Fenced model responses holding a JSON object with trailing commas *)

Definition newline : ascii := "010"%char.

(** One element of a string literal: a character other than the quote,
    the backslash, the backtick and the control characters; a two-character
    escape, a backslash followed by one of the characters the grammar allows
    there; a [\uXXXX] escape. *)
Inductive sitem :=
  | SChar (c : ascii)
  | SEsc (c : ascii)
  | SUni (h1 h2 h3 h4 : ascii).

Definition sitem_wf (i : sitem) : bool :=
  match i with
  | SChar c =>
      ((32 <=? nat_of_ascii c) && negb (Ascii.eqb c dquote) &&
       negb (Ascii.eqb c backslash) && negb (Ascii.eqb c "`"%char))%bool
  | SEsc c => simple_escape c
  | SUni h1 h2 h3 h4 => (is_hex h1 && is_hex h2 && is_hex h3 && is_hex h4)%bool
  end.

Definition print_sitem (i : sitem) : list ascii :=
  match i with
  | SChar c => [c]
  | SEsc c => [backslash; c]
  | SUni h1 h2 h3 h4 => [backslash; "u"%char; h1; h2; h3; h4]
  end.

(** The characters between the quotes of a string literal. *)
Definition str_body (cs : list sitem) : list ascii := flat_map print_sitem cs.

Definition print_str (cs : list sitem) : list ascii := dquote :: str_body cs ++ [dquote].

Inductive digit := D0 | D1 | D2 | D3 | D4 | D5 | D6 | D7 | D8 | D9.

Definition digit_char (d : digit) : ascii :=
  match d with
  | D0 => "0" | D1 => "1" | D2 => "2" | D3 => "3" | D4 => "4"
  | D5 => "5" | D6 => "6" | D7 => "7" | D8 => "8" | D9 => "9"
  end%char.

(** The exponent of a number: [e] or [E], an optional sign, digits. *)
Record exponent := mkExp {
  exp_letter : ascii;
  exp_sign : option ascii;
  exp_lead : digit;
  exp_digits : list digit
}.

(** JSON values with the white space between their tokens. The last
    element of an array and the last member of an object may carry a
    trailing comma, followed by white space. *)
Inductive jv :=
  | JNull | JTrue | JFalse
  | JNum (neg : bool) (lead : digit) (ds : list digit)
         (frac : option (digit * list digit)) (ex : option exponent)
  | JStr (cs : list sitem)
  | JArr0 (w : list ascii) | JArr (es : jelems)
  | JObj0 (w : list ascii) | JObj (ms : jmembers)
with jelems :=
  | EOne (w1 : list ascii) (v : jv) (w2 : list ascii) (trailing : option (list ascii))
  | ECons (w1 : list ascii) (v : jv) (w2 : list ascii) (rest : jelems)
with jmembers :=
  | MOne (w1 : list ascii) (k : list sitem) (w2 w3 : list ascii) (v : jv) (w4 : list ascii)
         (trailing : option (list ascii))
  | MCons (w1 : list ascii) (k : list sitem) (w2 w3 : list ascii) (v : jv) (w4 : list ascii)
          (rest : jmembers).

Definition ws (w : list ascii) : bool := forallb json_ws w.

Definition exp_wf (ex : option exponent) : bool :=
  match ex with
  | None => true
  | Some e =>
      ((Ascii.eqb (exp_letter e) "e"%char || Ascii.eqb (exp_letter e) "E"%char) &&
       match exp_sign e with
       | None => true
       | Some c => (Ascii.eqb c "+"%char || Ascii.eqb c "-"%char)%bool
       end)%bool
  end.

Definition trailing_wf (tc : option (list ascii)) : bool :=
  match tc with Some w => ws w | None => true end.

(** Well-formed values: JSON white space only, no leading zero, string
    literals without backticks. *)
Fixpoint jv_wf (v : jv) : bool :=
  match v with
  | JNum _ lead ds _ ex =>
      (match lead, ds with D0, _ :: _ => false | _, _ => true end && exp_wf ex)%bool
  | JStr cs => forallb sitem_wf cs
  | JArr0 w => ws w
  | JArr es => jelems_wf es
  | JObj0 w => ws w
  | JObj ms => jmembers_wf ms
  | _ => true
  end
with jelems_wf (es : jelems) : bool :=
  match es with
  | EOne w1 v w2 tc => (ws w1 && jv_wf v && ws w2 && trailing_wf tc)%bool
  | ECons w1 v w2 r => (ws w1 && jv_wf v && ws w2 && jelems_wf r)%bool
  end
with jmembers_wf (ms : jmembers) : bool :=
  match ms with
  | MOne w1 k w2 w3 v w4 tc =>
      (ws w1 && forallb sitem_wf k && ws w2 && ws w3 && jv_wf v && ws w4 &&
       trailing_wf tc)%bool
  | MCons w1 k w2 w3 v w4 r =>
      (ws w1 && forallb sitem_wf k && ws w2 && ws w3 && jv_wf v && ws w4 &&
       jmembers_wf r)%bool
  end.

Definition trailing_comma (tc : option (list ascii)) : list ascii :=
  match tc with Some w => ","%char :: w | None => [] end.

Definition print_frac (frac : option (digit * list digit)) : list ascii :=
  match frac with
  | Some (d, ds) => "."%char :: digit_char d :: map digit_char ds
  | None => []
  end.

Definition print_exp (ex : option exponent) : list ascii :=
  match ex with
  | Some e =>
      exp_letter e :: (match exp_sign e with Some c => [c] | None => [] end) ++
      digit_char (exp_lead e) :: map digit_char (exp_digits e)
  | None => []
  end.

Definition print_num (neg : bool) (lead : digit) (ds : list digit)
  (frac : option (digit * list digit)) (ex : option exponent) : list ascii :=
  (if neg then ["-"%char] else []) ++
  digit_char lead :: map digit_char ds ++ print_frac frac ++ print_exp ex.

(** The text of a value, its white space and trailing commas included. *)
Fixpoint print (v : jv) : list ascii :=
  match v with
  | JNull => list_ascii_of_string "null"
  | JTrue => list_ascii_of_string "true"
  | JFalse => list_ascii_of_string "false"
  | JNum neg lead ds frac ex => print_num neg lead ds frac ex
  | JStr cs => print_str cs
  | JArr0 w => "["%char :: w ++ ["]"%char]
  | JArr es => "["%char :: print_elems es
  | JObj0 w => "{"%char :: w ++ ["}"%char]
  | JObj ms => "{"%char :: print_members ms
  end
with print_elems (es : jelems) : list ascii :=
  match es with
  | EOne w1 v w2 tc => w1 ++ print v ++ w2 ++ trailing_comma tc ++ ["]"%char]
  | ECons w1 v w2 r => w1 ++ print v ++ w2 ++ ","%char :: print_elems r
  end
with print_members (ms : jmembers) : list ascii :=
  match ms with
  | MOne w1 k w2 w3 v w4 tc =>
      w1 ++ print_str k ++ w2 ++ ":"%char :: w3 ++ print v ++ w4 ++ trailing_comma tc ++
      ["}"%char]
  | MCons w1 k w2 w3 v w4 r =>
      w1 ++ print_str k ++ w2 ++ ":"%char :: w3 ++ print v ++ w4 ++ ","%char ::
      print_members r
  end.

Definition is_object (v : jv) : bool :=
  match v with JObj0 _ | JObj _ => true | _ => false end.

(** Characters of the prose around the fence: no braces, no backticks. *)
Definition prose_char (c : ascii) : bool :=
  negb (Ascii.eqb c "{"%char || Ascii.eqb c "}"%char || Ascii.eqb c "`"%char).

(** A model response: prose, an opening [```json] fence, the object, a
    closing fence, a line break, prose. *)
Definition fenced (pre : list ascii) (v : jv) (post : list ascii) : list ascii :=
  pre ++ list_ascii_of_string "```json" ++ newline :: print v ++
  newline :: list_ascii_of_string "```" ++ newline :: post.

(** Mutual induction over JSON values, arrays and objects. *)
Scheme jv_mut := Induction for jv Sort Prop
with jelems_mut := Induction for jelems Sort Prop
with jmembers_mut := Induction for jmembers Sort Prop.
Combined Scheme jv_all from jv_mut, jelems_mut, jmembers_mut.

(** A character that may start a value: no closing bracket, no white
    space, no comma. *)
Definition head_ok (c : ascii) : bool :=
  (negb (is_close c) && negb (js_ws c) && negb (json_ws c) &&
   negb (Ascii.eqb c ","%char))%bool.

Definition no_comma (c : ascii) : bool := negb (Ascii.eqb c ","%char).

Definition no_tick (c : ascii) : bool := negb (Ascii.eqb c "`"%char).

(** Nesting measure: the fuel the recogniser needs. *)
Fixpoint size (v : jv) : nat :=
  match v with
  | JArr es => S (size_elems es)
  | JObj ms => S (size_members ms)
  | _ => 1
  end
with size_elems (es : jelems) : nat :=
  match es with
  | EOne _ v _ _ => S (size v)
  | ECons _ v _ r => size v + size_elems r
  end
with size_members (ms : jmembers) : nat :=
  match ms with
  | MOne _ _ _ _ v _ _ => S (size v)
  | MCons _ _ _ _ v _ r => size v + size_members r
  end.

(** What may follow a value inside a document. *)
Definition follow (rest : list ascii) : Prop :=
  match rest with
  | [] => True
  | c :: _ => c = ","%char \/ c = "]"%char \/ c = "}"%char \/ js_ws c = true
  end.

(** Example texts. [q] is a one-character string holding a quote. *)
Definition q : string := String dquote EmptyString.
Definition braces_in_prose : string :=
  ("```json" ++ String newline ("{" ++ q ++ "a" ++ q ++ ": [1,]}") ++
   String newline "```" ++ String newline "Ask me about {anything}.")%string.

Definition sp : ascii := " "%char.
Definition tab : ascii := "009"%char.

(** An object with white space around its tokens, an escaped quote, a
    comma and a closing brace inside a string literal, a [\u00e9] escape,
    the numbers [-0.5e+3] and [0], and trailing commas followed by a tab and
    by a line break. *)
Definition ex_object : jv :=
  JObj (MCons [sp] [SChar "n"; SChar "a"; SChar "m"; SChar "e"]%char [sp] [sp]
          (JStr [SChar "A"; SEsc dquote; SChar "n"; SChar ","; SChar sp; SChar "}";
                 SChar "n"; SUni "0" "0" "e" "9"]%char) [sp]
       (MCons [newline; sp; sp] [SChar "s"; SChar "c"; SChar "o"; SChar "r"; SChar "e";
                                 SChar "s"]%char [] []
          (JArr (ECons [sp] (JNum true D0 [] (Some (D5, [])) (Some (mkExp "e" (Some "+") D3 [])))
                   [] (EOne [sp] (JNum false D0 [] None None) [sp] (Some [tab])))%char) []
       (MOne [newline; sp; sp] [SChar "o"; SChar "k"]%char [] [] JTrue [] (Some [newline])))).
Definition ex_pre : list ascii := list_ascii_of_string "Here is the report:" ++ [newline].
Definition ex_post : list ascii := list_ascii_of_string "Stay healthy.".

End JsonClean.

(* ------------------------------------------------------------------ *)
(** ** Report generation and [handleFormSubmit] *)

Module Orchestrator.

Import Sources.

Inductive AppState := LANDING | FORM | LOADING | REPORT | ERROR | BLOOD_BLOG.

Record UserProfile := mkUserProfile {
  age : string; gender : string; bloodGroup : string; weight : string;
  height : string; activityLevel : string; medicalHistory : string;
  dietaryPreference : string
}.

Record DailyActivity := mkDailyActivity {
  timeOfDay : string; activity_title : string; description : string;
  activity_type : string
}.

Record HealthReport := mkHealthReport {
  bmi : Q;
  bmiCategory : string;
  overallHealthScore : Q;
  summary : string;
  potentialRisks : list string;
  keyStrengths : list string;
  dailyRoutine : list DailyActivity;
  nutritionalAdvice : list string;
  sources : option (list Source);
  visualBase64 : option string;
  date : option string;
  trendAnalysis : option string
}.

(** [report.summary = s] *)
Definition set_summary (s : string) (r : HealthReport) : HealthReport :=
  mkHealthReport (bmi r) (bmiCategory r) (overallHealthScore r) s
    (potentialRisks r) (keyStrengths r) (dailyRoutine r) (nutritionalAdvice r)
    (sources r) (visualBase64 r) (date r) (trendAnalysis r).

(** [{ ...prev, visualBase64: img }] *)
Definition set_visual (img : string) (r : HealthReport) : HealthReport :=
  mkHealthReport (bmi r) (bmiCategory r) (overallHealthScore r) (summary r)
    (potentialRisks r) (keyStrengths r) (dailyRoutine r) (nutritionalAdvice r)
    (sources r) (Some img) (date r) (trendAnalysis r).

(** [report.sources = uniqueSources; report.date = now] *)
Definition set_sources_date (srcs : list Source) (d : string) (r : HealthReport)
  : HealthReport :=
  mkHealthReport (bmi r) (bmiCategory r) (overallHealthScore r) (summary r)
    (potentialRisks r) (keyStrengths r) (dailyRoutine r) (nutritionalAdvice r)
    (Some srcs) (visualBase64 r) (Some d) (trendAnalysis r).

(** Settlement of a promise: fulfilled with a value, or rejected with an
    error whose [message] is given ([""] when it has none). *)
Inductive outcome (A : Type) := Resolved (a : A) | Rejected (message : string).
Arguments Resolved {A} a.
Arguments Rejected {A} message.

(** A promise that settles at a given time (the submission happens at 0). *)
Definition promise (A : Type) := (nat * outcome A)%type.

(** Result of [JSON.parse] on the cleaned text: an object, another JSON
    value (such as [null] or a number), or a thrown [SyntaxError]. *)
Inductive json_result := JsonObject (r : HealthReport) | JsonOther | JsonSyntaxError.

(** The behaviour of the generation service for one submission. *)
Record Service := mkService {
  (** fast-summary [generateContent]: settlement time, [response.text] *)
  fast_resp : promise string;
  (** full-report [generateContent]: [response.text] and the grounding chunks *)
  report_resp : promise (string * list Chunk);
  (** image [generateContent]: [inlineData.data] of the first inline part *)
  visual_resp : promise (option string);
  (** text-to-speech [generateContent]: latency, and the audio data
      returned for the text sent *)
  tts_latency : nat;
  tts_resp : string -> outcome (option string);
  (** [new Date().toISOString()] when the report is stamped *)
  now_iso : string;
  (** [JSON.parse] *)
  json_parse : string -> json_result
}.

Local Open Scope string_scope.

(** [generateFastSummary]: never rejects. *)
Definition generateFastSummary (o : outcome string) : outcome string :=
  match o with
  | Resolved t =>
      Resolved (if String.eqb t "" then "Your health profile has been analyzed." else t)
  | Rejected _ => Resolved "Your comprehensive health report is ready."
  end.

Definition parseErrorMessage : string := "Failed to parse AI response".

(** Assigning [report.sources] on a value that is not an object throws. *)
Definition nonObjectMessage : string :=
  "Cannot set properties of null (setting 'sources')".

(** [generateHealthReport] *)
Definition generateHealthReport (svc : Service) (o : outcome (string * list Chunk))
  : outcome HealthReport :=
  match o with
  | Rejected e => Rejected e
  | Resolved (text, chunks) =>
      let text := if String.eqb text "" then "{}" else text in
      match json_parse svc (JsonClean.cleanJsonString text) with
      | JsonSyntaxError => Rejected parseErrorMessage
      | JsonOther => Rejected nonObjectMessage
      | JsonObject report =>
          Resolved (set_sources_date (dedupSources chunks) (now_iso svc) report)
      end
  end.

(** [generateReportVisual]: never rejects; [undefined] is [None]. *)
Definition generateReportVisual (o : outcome (option string)) : outcome (option string) :=
  match o with
  | Resolved img => Resolved img
  | Rejected _ => Resolved None
  end.

(** [generateAudioSummary(text)]: sends [safeText text]; missing or empty
    audio data throws. *)
Definition generateAudioSummary (svc : Service) (text : string) : outcome string :=
  match tts_resp svc (Narration.safeText text) with
  | Rejected e => Rejected e
  | Resolved None => Rejected "No audio data generated"
  | Resolved (Some d) =>
      if String.eqb d "" then Rejected "No audio data generated" else Resolved d
  end.

Definition visualPromise (svc : Service) : promise (option string) :=
  (fst (visual_resp svc), generateReportVisual (snd (visual_resp svc))).

Definition summaryPromise (svc : Service) : promise string :=
  (fst (fast_resp svc), generateFastSummary (snd (fast_resp svc))).

Definition reportPromise (svc : Service) : promise HealthReport :=
  (fst (report_resp svc), generateHealthReport svc (snd (report_resp svc))).

(** [summaryPromise.then(summary => generateAudioSummary(summary))] *)
Definition audioPromise (svc : Service) : promise string :=
  match summaryPromise svc with
  | (t, Resolved s) => (t + tts_latency svc, generateAudioSummary svc s)%nat
  | (t, Rejected e) => (t, Rejected e)
  end.

(** [Promise.all([p, q])]: fulfilled when both are, at the later time;
    rejected at the first rejection. *)
Definition promise_all2 {A B} (p : promise A) (q : promise B) : promise (A * B) :=
  match p, q with
  | (t1, Resolved a), (t2, Resolved b) => (Nat.max t1 t2, Resolved (a, b))
  | (t1, Rejected e), (_, Resolved _) => (t1, Rejected e)
  | (_, Resolved _), (t2, Rejected e) => (t2, Rejected e)
  | (t1, Rejected e1), (t2, Rejected e2) =>
      if (t2 <? t1)%nat then (t2, Rejected e2) else (t1, Rejected e1)
  end.

(** The requests sent to the generation service, with their start times. *)
Inductive Call :=
  | CallVisual (p : UserProfile)
  | CallFastSummary (p : UserProfile)
  | CallReport (p : UserProfile)
  | CallTts (text : string).

Definition launches (data : UserProfile) (svc : Service) : list (Call * nat) :=
  [(CallVisual data, 0%nat); (CallFastSummary data, 0%nat); (CallReport data, 0%nat)] ++
  match summaryPromise svc with
  | (t, Resolved s) => [(CallTts (Narration.safeText s), t)]
  | (_, Rejected _) => []
  end.

(** [s.includes(sub)] *)
Fixpoint includes (sub s : string) : bool :=
  (String.prefix sub s ||
   match s with
   | EmptyString => false
   | String _ s' => includes sub s'
   end)%bool.

Definition genericMessage : string :=
  "An issue occurred while analyzing your profile. Please check your connection and try again.".
Definition rateLimitMessage : string :=
  "The AI servers are currently experiencing high traffic. Please try again in a moment.".
Definition unavailableMessage : string :=
  "The AI service is currently unavailable (Model Not Found). Please contact support.".
Definition configMessage : string :=
  "Service configuration error: Invalid or missing API Key.".
Definition safetyMessage : string :=
  "The profile data triggered safety filters. Please review your entries and try again.".
Definition malformedMessage : string :=
  "A malformed response was received from the AI. Please try again.".

(** The [catch] block of [handleFormSubmit]. *)
Definition errorMessage (m : string) : string :=
  if String.eqb m "" then genericMessage
  else if includes "429" m || includes "Resource has been exhausted" m then rateLimitMessage
  else if includes "404" m || includes "Not Found" m then unavailableMessage
  else if includes "API_KEY" m || includes "403" m then configMessage
  else if includes "Safety" m || includes "blocked" m then safetyMessage
  else if includes "parse" m then malformedMessage
  else "Analysis failed: " ++ m.

(** The React state of [App] that [handleFormSubmit] writes. *)
Record App := mkApp {
  appState : AppState;
  userProfile : UserProfile;
  report : option HealthReport;
  reportAudio : option string;
  error : option string
}.

Definition with_report (r : option HealthReport) (s : App) : App :=
  mkApp (appState s) (userProfile s) r (reportAudio s) (error s).
Definition with_audio (a : option string) (s : App) : App :=
  mkApp (appState s) (userProfile s) (report s) a (error s).
Definition with_state (st : AppState) (s : App) : App :=
  mkApp st (userProfile s) (report s) (reportAudio s) (error s).
Definition with_error (e : option string) (s : App) : App :=
  mkApp (appState s) (userProfile s) (report s) (reportAudio s) e.
Definition with_profile (p : UserProfile) (s : App) : App :=
  mkApp (appState s) p (report s) (reportAudio s) (error s).

(** The state [handleFormSubmit(data)] leaves at time [t], starting from
    [s0] at time 0, when no other handler runs in between. *)
Definition handleFormSubmit (data : UserProfile) (svc : Service) (s0 : App) (t : nat)
  : App :=
  let s1 := with_audio None (with_error None (with_state LOADING (with_profile data s0))) in
  match promise_all2 (summaryPromise svc) (reportPromise svc) with
  | (tj, Resolved (fastSummary, generatedReport)) =>
      if (t <? tj)%nat then s1 else
      let s2 := with_state REPORT
                  (with_report (Some (set_summary fastSummary generatedReport)) s1) in
      let s3 :=
        match visualPromise svc with
        | (tv, Resolved (Some img)) =>
            if ((Nat.max tv tj <=? t)%nat && negb (String.eqb img ""))%bool
            then with_report (option_map (set_visual img) (report s2)) s2
            else s2
        | _ => s2
        end in
      match audioPromise svc with
      | (ta, Resolved a) =>
          if ((Nat.max ta tj <=? t)%nat && negb (String.eqb a ""))%bool
          then with_audio (Some a) s3
          else s3
      | (_, Rejected _) => s3
      end
  | (tj, Rejected msg) =>
      if (t <? tj)%nat then s1
      else with_state ERROR (with_error (Some (errorMessage msg)) s1)
  end.

(** [handleRetry]: [if (userProfile.age) handleFormSubmit(userProfile)
    else setAppState(AppState.FORM)]; the resubmission is observed at [t]. *)
Definition handleRetry (svc : Service) (s : App) (t : nat) : App :=
  if negb (String.eqb (age (userProfile s)) "") then handleFormSubmit (userProfile s) svc s t
  else with_state FORM s.

(** [handleEditProfile]: [setAppState(AppState.FORM)]. *)
Definition handleEditProfile (s : App) : App := with_state FORM s.

(** The image request failed: it was rejected or returned no image. *)
Definition visual_failed (svc : Service) : Prop :=
  match snd (visual_resp svc) with
  | Rejected _ => True
  | Resolved None => True
  | Resolved (Some img) => img = ""%string
  end.

(** Example inputs: a profile, the state before submission, a parsed
    report, and two service behaviours (the spec's timings: fast summary
    at 5, full report at 12). *)
Definition exampleProfile : UserProfile :=
  mkUserProfile "34" "Female" "O+" "62" "168" "Moderate" "None" "Vegetarian".

Definition exampleApp : App := mkApp FORM exampleProfile None None None.

Definition exampleReport : HealthReport :=
  mkHealthReport (22 # 1) "Normal" (82 # 1) "Model summary" ["Low iron"]
    ["Active"] [] ["Eat leafy greens"] None None None None.

(** The full-report call is rejected by a rate limit. *)
Definition rateLimitedService : Service :=
  mkService (5%nat, Resolved "Quick summary")
    (12%nat, Rejected "429 Resource has been exhausted")
    (3%nat, Resolved (Some "iVBOR"))
    2%nat (fun _ => Resolved (Some "UklG"))
    "2026-01-01T00:00:00.000Z" (fun _ => JsonSyntaxError).

(** Both required calls succeed; the image and narration calls fail. *)
Definition optionalFailService : Service :=
  mkService (5%nat, Resolved "Quick summary")
    (12%nat, Resolved ("{}", []))
    (3%nat, Rejected "500 Internal")
    2%nat (fun _ => Rejected "500 Internal")
    "2026-01-01T00:00:00.000Z" (fun _ => JsonObject exampleReport).

End Orchestrator.

(* ------------------------------------------------------------------ *)
(** ** The narration player of [ReportDashboard] *)

(** The React state and refs of the player, with the parts of the audio
    engine the handlers act on. Model choices: every event sees the state
    committed by the previous one (no stale closures); one clock serves as
    [ctx.currentTime] and as the timer clock; [ctx.resume()] settles at
    once. *)
Module Playback.

Import Orchestrator.

Local Open Scope Q_scope.

Record Player := mkPlayer {
  isPlaying : bool;
  isLoadingAudio : bool;
  preloadedAudioBase64 : option string;
  (** [audioContext !== null] *)
  audioContext : bool;
  audioBuffer : option Pcm.AudioBuffer;
  currentTime : Q;
  duration : Q;
  startTimeRef : Q;
  pausedTimeRef : Q;
  (** [sourceNodeRef.current], by the number of the source node *)
  sourceNodeRef : option nat;
  (** the clock: [ctx.currentTime], in seconds *)
  clock : Q;
  (** number of the next source node created *)
  nextSource : nat;
  (** the source nodes that are playing: number, time of their natural end *)
  playing : list (nat * Q);
  (** the pending [setTimeout] callbacks of [playBuffer]: source, due time *)
  timeouts : list (nat * Q);
  (** the offsets passed to [source.start(0, startOffset)], in order *)
  starts : list Q
}.

Definition initPlayer : Player :=
  mkPlayer false false None false None 0 0 0 0 None 0 0%nat [] [] [].

Inductive event :=
  | Click                           (** the play/pause button: [handlePlayAudio] *)
  | FetchDone (o : outcome string)  (** [await generateAudioSummary(...)] settles *)
  | Preload (data : string)         (** the prefetch effect stores its audio *)
  | Advance (dt : Q)                (** time passes; due timers run *)
  | Tick.                           (** an animation frame of the progress loop *)

Definition set_loading (b : bool) (s : Player) : Player :=
  mkPlayer (isPlaying s) b (preloadedAudioBase64 s) (audioContext s) (audioBuffer s)
    (currentTime s) (duration s) (startTimeRef s) (pausedTimeRef s) (sourceNodeRef s)
    (clock s) (nextSource s) (playing s) (timeouts s) (starts s).

Definition set_context (s : Player) : Player :=
  mkPlayer (isPlaying s) (isLoadingAudio s) (preloadedAudioBase64 s) true (audioBuffer s)
    (currentTime s) (duration s) (startTimeRef s) (pausedTimeRef s) (sourceNodeRef s)
    (clock s) (nextSource s) (playing s) (timeouts s) (starts s).

Definition set_preloaded (d : string) (s : Player) : Player :=
  mkPlayer (isPlaying s) (isLoadingAudio s) (Some d) (audioContext s) (audioBuffer s)
    (currentTime s) (duration s) (startTimeRef s) (pausedTimeRef s) (sourceNodeRef s)
    (clock s) (nextSource s) (playing s) (timeouts s) (starts s).

Definition set_currentTime (t : Q) (s : Player) : Player :=
  mkPlayer (isPlaying s) (isLoadingAudio s) (preloadedAudioBase64 s) (audioContext s)
    (audioBuffer s) t (duration s) (startTimeRef s) (pausedTimeRef s) (sourceNodeRef s)
    (clock s) (nextSource s) (playing s) (timeouts s) (starts s).

(** [setAudioBuffer(decodedBuffer); setDuration(decodedBuffer.duration)] *)
Definition set_buffer (b : Pcm.AudioBuffer) (s : Player) : Player :=
  mkPlayer (isPlaying s) (isLoadingAudio s) (preloadedAudioBase64 s) (audioContext s)
    (Some b) (currentTime s) (Pcm.buffer_duration b) (startTimeRef s) (pausedTimeRef s)
    (sourceNodeRef s) (clock s) (nextSource s) (playing s) (timeouts s) (starts s).

(** [decodePCM(data, ctx)]; [None] when it throws. *)
Definition decodeAudio (data : string) : option Pcm.AudioBuffer :=
  Pcm.decodePCM data.

(** [sourceNodeRef.current.stop()] *)
Definition stopCurrent (s : Player) : list (nat * Q) :=
  match sourceNodeRef s with
  | Some j => filter (fun p => negb (Nat.eqb (fst p) j)) (playing s)
  | None => playing s
  end.

(** [playBuffer(ctx, buffer, startOffset)] *)
Definition playBuffer (buffer : Pcm.AudioBuffer) (startOffset : Q) (s : Player) : Player :=
  let source := nextSource s in
  let durationRemaining := Pcm.buffer_duration buffer - startOffset in
  mkPlayer true (isLoadingAudio s) (preloadedAudioBase64 s) (audioContext s)
    (audioBuffer s) (currentTime s) (duration s) (clock s - startOffset) (pausedTimeRef s)
    (Some source) (clock s) (S source)
    ((source, clock s + durationRemaining) :: stopCurrent s)
    (timeouts s ++ [(source, clock s + durationRemaining + (1 # 5))])
    (starts s ++ [startOffset]).

(** The pause branch of [handlePlayAudio]. *)
Definition pause (s : Player) : Player :=
  let elapsed := clock s - startTimeRef s in
  mkPlayer false (isLoadingAudio s) (preloadedAudioBase64 s) (audioContext s)
    (audioBuffer s) elapsed (duration s) (startTimeRef s) elapsed (sourceNodeRef s)
    (clock s) (nextSource s) (stopCurrent s) (timeouts s) (starts s).

Definition decodeAndPlay (data : string) (s : Player) : Player :=
  match decodeAudio data with
  | Some b => playBuffer b 0 (set_buffer b s)
  | None => s
  end.

(** [handlePlayAudio]; the button is disabled while [isLoadingAudio]. *)
Definition handlePlayAudio (s : Player) : Player :=
  if isLoadingAudio s then s
  else if isPlaying s then
    match sourceNodeRef s with
    | Some _ => if audioContext s then pause s else s
    | None => s
    end
  else
    let s := set_context s in
    match audioBuffer s with
    | Some b =>
        let startOffset := if Qle_bool (duration s) (currentTime s) then 0 else pausedTimeRef s in
        playBuffer b startOffset s
    | None =>
        match preloadedAudioBase64 s with
        | Some data => if String.eqb data ""%string then set_loading true s else decodeAndPlay data s
        | None => set_loading true s
        end
    end.

(** The rest of [handlePlayAudio] after [await generateAudioSummary(...)]. *)
Definition fetchDone (o : outcome string) (s : Player) : Player :=
  if isLoadingAudio s then
    let s := set_loading false s in
    match o with
    | Resolved data => decodeAndPlay data s
    | Rejected _ => s
    end
  else s.

(** The animation loop: [setCurrentTime(Math.min(elapsed, duration))]. *)
Definition tick (s : Player) : Player :=
  if (audioContext s && isPlaying s)%bool
  then set_currentTime (Qmin (clock s - startTimeRef s) (duration s)) s
  else s.

(** Time passes: sources reach their natural end, and the due timers run
    [if (sourceNodeRef.current === source) { setIsPlaying(false);
    pausedTimeRef.current = 0; setCurrentTime(0) }]. *)
Definition fires (dt : Q) (s : Player) : bool :=
  existsb (fun p => match sourceNodeRef s with Some j => Nat.eqb (fst p) j | None => false end)
    (filter (fun p => Qle_bool (snd p) (clock s + dt)) (timeouts s)).

Definition advance (dt : Q) (s : Player) : Player :=
  let t := clock s + dt in
  let fired := fires dt s in
  mkPlayer (if fired then false else isPlaying s) (isLoadingAudio s)
    (preloadedAudioBase64 s) (audioContext s) (audioBuffer s)
    (if fired then 0 else currentTime s) (duration s) (startTimeRef s)
    (if fired then 0 else pausedTimeRef s) (sourceNodeRef s) t (nextSource s)
    (filter (fun p => negb (Qle_bool (snd p) t)) (playing s))
    (filter (fun p => negb (Qle_bool (snd p) t)) (timeouts s))
    (starts s).

Definition step (e : event) (s : Player) : Player :=
  match e with
  | Click => handlePlayAudio s
  | FetchDone o => fetchDone o s
  | Preload d => set_preloaded d s
  | Advance dt => advance dt s
  | Tick => tick s
  end.

Definition run (es : list event) (s : Player) : Player :=
  fold_left (fun s e => step e s) es s.


(** Example: a two-sample narration (four bytes), 1/12000 s long. *)
Definition exampleAudio : string := "AAEAAQ=="%string.

(** At most one source node plays, and it is the referenced one. *)
Definition single (s : Player) : Prop :=
  match playing s with
  | [] => True
  | [(j, _)] => sourceNodeRef s = Some j
  | _ => False
  end.

(** The invariant of every reachable state: a playing session has a context,
    a buffer and a pending timer of its current source, due 200 ms after the
    end of the audio; a pending narration request has a context and no
    buffer; a paused session shows its stored offset; [duration] is the
    duration of the buffer. *)
Definition player_inv (s : Player) : Prop :=
  single s /\
  (isPlaying s = true -> audioContext s = true /\ (exists b, audioBuffer s = Some b) /\
     exists j due, sourceNodeRef s = Some j /\ In (j, due) (timeouts s) /\
       due == startTimeRef s + duration s + (1 # 5)) /\
  (isLoadingAudio s = true ->
     audioContext s = true /\ isPlaying s = false /\ audioBuffer s = None) /\
  (isPlaying s = false -> currentTime s = pausedTimeRef s) /\
  (forall b, audioBuffer s = Some b -> duration s = Pcm.buffer_duration b).

(** Time only moves forward: every [Advance] has a non-negative step. *)
Definition forward (es : list event) : bool :=
  forallb (fun e => match e with Advance dt => Qle_bool 0 dt | _ => true end) es.

(** The prefetch effect does not store audio again. *)
Definition no_preload (es : list event) : bool :=
  forallb (fun e => match e with Preload _ => false | _ => true end) es.

(** Numeric bounds of a session: offsets stay within the buffer's duration,
    and the shown time, the stored offset and the elapsed time are not
    negative. *)
Definition player_bounds (s : Player) : Prop :=
  0 <= duration s /\
  (forall b, audioBuffer s = Some b -> (0 < Pcm.buffer_length b)%nat) /\
  (audioBuffer s = None ->
     currentTime s == 0 /\ pausedTimeRef s == 0 /\ sourceNodeRef s = None /\ starts s = [] /\
     isPlaying s = false) /\
  0 <= pausedTimeRef s /\ 0 <= currentTime s /\
  (isPlaying s = true -> 0 <= clock s - startTimeRef s) /\
  (forall off, In off (starts s) -> 0 <= off /\ off < duration s).

End Playback.

(* ------------------------------------------------------------------ *)
(** ** Report dashboard helpers *)

(** [formatTime] and [calculateMetrics] of components/ReportDashboard.tsx.
    Times are exact rationals, as in [Playback]. *)
Module Dashboard.

Import Orchestrator.

(** Decimal digits, as [Number.prototype.toString] prints an integer. *)
Fixpoint uint_to_string (u : Decimal.uint) : string :=
  match u with
  | Decimal.Nil => EmptyString
  | Decimal.D0 u => String "0" (uint_to_string u)
  | Decimal.D1 u => String "1" (uint_to_string u)
  | Decimal.D2 u => String "2" (uint_to_string u)
  | Decimal.D3 u => String "3" (uint_to_string u)
  | Decimal.D4 u => String "4" (uint_to_string u)
  | Decimal.D5 u => String "5" (uint_to_string u)
  | Decimal.D6 u => String "6" (uint_to_string u)
  | Decimal.D7 u => String "7" (uint_to_string u)
  | Decimal.D8 u => String "8" (uint_to_string u)
  | Decimal.D9 u => String "9" (uint_to_string u)
  end.

(** [`${n}`] for an integer [n]. *)
Definition numberToString (z : Z) : string :=
  match Z.to_int z with
  | Decimal.Pos u => uint_to_string u
  | Decimal.Neg u => String "-" (uint_to_string u)
  end.

(** [n] copies of [c]. *)
Fixpoint padding (n : nat) (c : ascii) : string :=
  match n with 0 => EmptyString | S n' => String c (padding n' c) end.

(** [s.padStart(n, c)] for a one-character [c]. *)
Definition padStart (n : nat) (c : ascii) (s : string) : string :=
  if (String.length s <? n)%nat then (padding (n - String.length s) c ++ s)%string else s.

Local Open Scope Q_scope.

(** [Math.trunc] *)
Definition js_trunc (x : Q) : Z := if Qle_bool 0 x then Qfloor x else Qceiling x.

(** [x % y]: the remainder takes the sign of [x]. *)
Definition js_rem (x y : Q) : Q := x - y * inject_Z (js_trunc (x / y)).

(** [formatTime(seconds)]: [`${Math.floor(seconds / 60)}:${Math.floor(seconds % 60)
    .toString().padStart(2, '0')}`] *)
Definition formatTime (seconds : Q) : string :=
  let mins := Qfloor (seconds / 60) in
  let secs := Qfloor (js_rem seconds 60) in
  (numberToString mins ++ ":" ++ padStart 2 "0" (numberToString secs))%string.

(** The two decimal digits of [k], for [0 <= k < 100]. *)
Definition two_digits (k : Z) : string :=
  String (ascii_of_nat (48 + Z.to_nat (k / 10)))
    (String (ascii_of_nat (48 + Z.to_nat (k mod 10))) EmptyString).

Local Close Scope Q_scope.
Local Open Scope Z_scope.

(** The object returned by [calculateMetrics]. *)
Record Metrics := mkMetrics {
  bmiScore : Z; riskScore : Z; strengthScore : Z; routineScore : Z
}.

(** [calculateMetrics(r)] *)
Definition calculateMetrics (r : HealthReport) : Metrics :=
  let bmiScore :=
    if String.eqb (bmiCategory r) "Normal" then 95
    else if String.eqb (bmiCategory r) "Overweight" then 75
    else if String.eqb (bmiCategory r) "Underweight" then 70 else 50 in
  let riskScore := Z.max 20 (100 - Z.of_nat (length (potentialRisks r)) * 15) in
  let strengthScore := Z.min 100 (50 + Z.of_nat (length (keyStrengths r)) * 10) in
  let routineScore := Z.min 100 (60 + Z.of_nat (length (dailyRoutine r)) * 5) in
  mkMetrics bmiScore riskScore strengthScore routineScore.

End Dashboard.

(* ================================================================== *)
(** * Proofs *)

Module SourcesProofs.

Import Sources.

Lemma map_has_spec k m : map_has k m = true <-> In k (map fst m).
Proof.
  unfold map_has. rewrite existsb_exists. split.
  - intros [[k' v] [Hin Heq]]. apply String.eqb_eq in Heq. simpl in Heq. subst.
    apply in_map_iff. exists (k, v). auto.
  - intros Hin. apply in_map_iff in Hin. destruct Hin as [[k' v] [Heq Hin]].
    simpl in Heq. subst. exists (k, v). split; [assumption | apply String.eqb_refl].
Qed.

Lemma keys_map_set k v m :
  map fst (map_set k v m) =
  if map_has k m then map fst m else map fst m ++ [k].
Proof.
  unfold map_set. destruct (map_has k m) eqn:Hh.
  - rewrite map_map. apply map_ext. intros [k' v']. simpl.
    destruct (String.eqb_spec k' k); subst; reflexivity.
  - rewrite map_app. reflexivity.
Qed.

Lemma in_map_set k v m k' v' :
  In (k', v') (map_set k v m) <-> (k' = k /\ v' = v) \/ (k' <> k /\ In (k', v') m).
Proof.
  unfold map_set. destruct (map_has k m) eqn:Hh.
  - rewrite in_map_iff. split.
    + intros [[k0 v0] [Heq Hin]]. simpl in Heq.
      destruct (String.eqb_spec k0 k).
      * inversion Heq; subst. left. auto.
      * inversion Heq; subst. right. auto.
    + intros [[-> ->] | [Hne Hin]].
      * apply map_has_spec in Hh. apply in_map_iff in Hh.
        destruct Hh as [[k0 v0] [Heq Hin]]. simpl in Heq. subst.
        exists (k, v0). simpl. rewrite String.eqb_refl. auto.
      * exists (k', v'). simpl. destruct (String.eqb_spec k' k); [contradiction | auto].
  - rewrite in_app_iff. simpl. split.
    + intros [Hin | [Heq | []]].
      * right. split; [|assumption]. intros ->.
        assert (In k (map fst m)) as Hk
          by (apply in_map_iff; exists (k, v'); auto).
        apply map_has_spec in Hk. congruence.
      * inversion Heq; subst. left. auto.
    + intros [[-> ->] | [_ Hin]]; auto.
Qed.

Lemma lastWith_snoc u l s :
  lastWith u (l ++ [s]) = if String.eqb (uri s) u then Some s else lastWith u l.
Proof. unfold lastWith. rewrite fold_left_app. reflexivity. Qed.

(** Invariant of the [forEach] loop after the prefix [p] has been inserted. *)
Definition dedup_inv (m : JsMap) (p : list Source) : Prop :=
  NoDup (map fst m) /\
  (forall k, In k (map fst m) <-> In k (map uri p)) /\
  (forall k v, In (k, v) m -> uri v = k /\ lastWith k p = Some v).

Lemma dedup_inv_step m p s :
  dedup_inv m p -> dedup_inv (map_set (uri s) s m) (p ++ [s]).
Proof.
  intros [Hnd [Hkeys Hval]]. split; [|split].
  - rewrite keys_map_set. destruct (map_has (uri s) m) eqn:Hh; [assumption|].
    apply NoDup_app; [assumption | constructor; [intros []|constructor] |].
    intros x Hx [<- | []]. apply map_has_spec in Hx. congruence.
  - intros k. rewrite keys_map_set, map_app, in_app_iff. simpl.
    destruct (map_has (uri s) m) eqn:Hh.
    + rewrite Hkeys. split; [tauto|]. intros [Hk | [<- | []]]; [assumption|].
      apply Hkeys, map_has_spec. assumption.
    + rewrite in_app_iff, Hkeys. simpl. tauto.
  - intros k v Hin. apply in_map_set in Hin. rewrite lastWith_snoc.
    destruct Hin as [[-> ->] | [Hne Hin]].
    + rewrite String.eqb_refl. auto.
    + destruct (Hval _ _ Hin) as [Hu Hl]. split; [assumption|].
      destruct (String.eqb_spec (uri s) k) as [Heq|_]; [congruence|assumption].
Qed.

Lemma dedup_inv_fold l m p :
  dedup_inv m p ->
  dedup_inv (fold_left (fun m s => map_set (uri s) s m) l m) (p ++ l).
Proof.
  revert m p. induction l as [|s l IH]; intros m p H.
  - rewrite app_nil_r. assumption.
  - simpl. replace (p ++ s :: l) with ((p ++ [s]) ++ l)
      by (rewrite <- app_assoc; reflexivity).
    apply IH. apply dedup_inv_step. assumption.
Qed.

Lemma dedup_inv_nil : dedup_inv [] [].
Proof. split; [constructor|split; simpl; [tauto | intros k v []]]. Qed.

Lemma sources_uri_nonempty chunks s : In s (sources chunks) -> uri s <> ""%string.
Proof.
  unfold sources. rewrite filter_In. intros [_ H]. intros Heq.
  rewrite Heq in H. discriminate.
Qed.

Lemma map_uri_snd (m : JsMap) :
  (forall k v, In (k, v) m -> uri v = k) -> map uri (map snd m) = map fst m.
Proof.
  induction m as [|[k v] m IH]; intros H; [reflexivity|].
  simpl. rewrite (H k v (or_introl eq_refl)). f_equal.
  apply IH. intros k' v' Hin. apply (H k' v'). right. assumption.
Qed.

Lemma dedupSources_inv chunks :
  exists m, dedupSources chunks = map snd m /\ dedup_inv m (sources chunks).
Proof.
  eexists. split; [reflexivity|].
  apply (dedup_inv_fold (sources chunks) [] []). apply dedup_inv_nil.
Qed.

(** Claim C4 (counterexample): two citations share the URI "https://a";
    the first one seen is titled "First", yet the deduplicated list keeps
    the title "Second" ([Map.set] overwrites the value of a present key). *)
Lemma dedup_first_title_counterexample :
  let cs := [mkChunk (Some (mkWeb (Some "First"%string) (Some "https://a"%string)));
             mkChunk (Some (mkWeb (Some "Second"%string) (Some "https://a"%string)))] in
  dedupSources cs = [mkSource "Second"%string "https://a"%string] /\
  option_map title (firstWith "https://a"%string (sources cs)) = Some "First"%string.
Proof. split; reflexivity. Qed.

(** Claim C4 (amended): deduplication drops every citation with an empty
    URI and keeps exactly one entry per distinct URI; the entry kept for a
    URI is the LAST citation seen with that URI (its title is the last-seen
    title), placed where the URI first occurred. *)
Theorem dedup_sources_unique_last_title (chunks : list Chunk) :
  let out := dedupSources chunks in
  (forall s, In s out -> uri s <> ""%string) /\
  NoDup (map uri out) /\
  (forall u, In u (map uri out) <-> In u (map uri (sources chunks))) /\
  (forall s, In s out -> lastWith (uri s) (sources chunks) = Some s).
Proof.
  simpl. destruct (dedupSources_inv chunks) as [m [-> [Hnd [Hkeys Hval]]]].
  assert (Hu : map uri (map snd m) = map fst m)
    by (apply map_uri_snd; intros k v Hin; apply (Hval k v Hin)).
  assert (Hin_snd : forall s, In s (map snd m) -> In (uri s, s) m).
  { intros s Hs. apply in_map_iff in Hs. destruct Hs as [[k v] [Heq Hin]].
    simpl in Heq. subst v. destruct (Hval k s Hin) as [<- _]. assumption. }
  split; [|split; [|split]].
  - intros s Hs. apply Hin_snd in Hs.
    assert (In (uri s) (map uri (sources chunks))) as Hk
      by (apply Hkeys, in_map_iff; exists (uri s, s); auto).
    apply in_map_iff in Hk. destruct Hk as [s' [Heq Hs']].
    rewrite <- Heq. apply (sources_uri_nonempty chunks s' Hs').
  - rewrite Hu. assumption.
  - intros u. rewrite Hu. apply Hkeys.
  - intros s Hs. apply Hin_snd in Hs. apply (Hval _ _ Hs).
Qed.

End SourcesProofs.

Module NarrationProofs.

Import Narration.

Lemma stripMd_length_le s : String.length (stripMd s) <= String.length s.
Proof.
  induction s as [|c s IH]; simpl; [lia|].
  destruct (is_md c); simpl; lia.
Qed.

Lemma stripMd_length_eq s :
  String.length (stripMd s) = String.length s -> stripMd s = s /\ no_md s = true.
Proof.
  induction s as [|c s IH]; simpl; [auto|].
  destruct (is_md c) eqn:Hc; simpl; intros H.
  - pose proof (stripMd_length_le s). lia.
  - destruct (IH ltac:(lia)) as [-> ->]. auto.
Qed.

Lemma stripMd_no_md s : no_md s = true -> stripMd s = s.
Proof.
  induction s as [|c s IH]; simpl; [auto|].
  intros H. apply andb_true_iff in H. destruct H as [Hc Hs].
  apply negb_true_iff in Hc. rewrite Hc, IH by assumption. reflexivity.
Qed.

Lemma length_append (a b : string) :
  String.length (a ++ b) = String.length a + String.length b.
Proof. induction a as [|c a IH]; simpl; auto. Qed.

Lemma substring_0_app (p q : string) :
  substring 0 (String.length p) (p ++ q) = p.
Proof. induction p as [|c p IH]; simpl; [destruct q; reflexivity | rewrite IH; reflexivity]. Qed.

Lemma substring_0_length n (s : string) :
  n <= String.length s -> String.length (substring 0 n s) = n.
Proof.
  revert s. induction n as [|n IH]; intros s H; [destruct s; reflexivity|].
  destruct s as [|c s]; simpl in *; [lia|]. rewrite IH; lia.
Qed.

(** Claim C10 (counterexample): a summary of exactly 601 characters ending
    in a period, with no markdown characters, is longer than 600 characters
    and is nevertheless narrated verbatim. *)
Lemma narration_601_counterexample :
  let s := (rep 600 "a"%char ++ ".")%string in
  600 < String.length s /\ no_md s = true /\ safeText s = s.
Proof. vm_compute. split; [lia | split; reflexivity]. Qed.

(** Claim C10 (amended): the narration call strips '*', '#' and '_' and,
    when the stripped text exceeds 600 characters, keeps its first 600
    characters followed by a period. Hence the narrated text equals the
    summary exactly when the summary has none of those characters and is
    either at most 600 characters long, or exactly 601 characters long
    ending in a period. *)
Theorem narration_equals_summary_iff (s : string) :
  safeText s = s <->
  no_md s = true /\
  (String.length s <= 600 \/
   exists p, s = (p ++ ".")%string /\ String.length p = 600).
Proof.
  unfold safeText. pose proof (stripMd_length_le s) as Hle. split.
  - destruct (Nat.ltb_spec 600 (String.length (stripMd s))) as [Hlt|Hge]; intros H.
    + assert (Hl : String.length s = 601).
      { rewrite <- H, length_append, substring_0_length by lia. reflexivity. }
      destruct (stripMd_length_eq s ltac:(lia)) as [Hid Hno].
      split; [assumption|]. right. exists (substring 0 600 (stripMd s)).
      split; [symmetry; assumption|]. apply substring_0_length. lia.
    + rewrite H in Hge. split; [|left; assumption].
      apply (proj2 (stripMd_length_eq s ltac:(rewrite H; reflexivity))).
  - intros [Hno Hlen]. rewrite (stripMd_no_md s Hno).
    destruct Hlen as [Hlen | [p [-> Hp]]].
    + destruct (Nat.ltb_spec 600 (String.length s)); [lia | reflexivity].
    + rewrite length_append. simpl.
      destruct (Nat.ltb_spec 600 (String.length p + 1)); [|lia].
      rewrite <- Hp, substring_0_app. reflexivity.
Qed.

End NarrationProofs.

Module PcmProofs.

Import Pcm.
Local Open Scope Z_scope.

(** Induction over a list two elements at a time. *)
Lemma pair_ind {A} (P : list A -> Prop) :
  P [] -> (forall x, P [x]) -> (forall a b l, P l -> P (a :: b :: l)) ->
  forall l, P l.
Proof.
  intros H0 H1 H2 l.
  assert (Hgen : forall n l, (length l <= n)%nat -> P l).
  { induction n as [|n IH]; intros [|a [|b l']] Hl; simpl in Hl; auto; try lia.
    apply H2. apply IH. lia. }
  apply (Hgen (length l) l). lia.
Qed.

Lemma b64val_range c : match b64val c with Some v => 0 <= v < 64 | None => True end.
Proof. destruct c as [[] [] [] [] [] [] [] []]; vm_compute; try split; try discriminate; trivial. Qed.

Lemma all_values_range cs vs :
  all_values cs = Some vs -> Forall (fun v => 0 <= v < 64) vs.
Proof.
  revert vs. induction cs as [|c cs IH]; simpl; intros vs H.
  - inversion H. constructor.
  - pose proof (b64val_range c) as Hc.
    destruct (b64val c) as [v|]; [|discriminate].
    destruct (all_values cs) as [vs'|]; [|discriminate].
    inversion H; subst. constructor; [assumption | apply IH; reflexivity].
Qed.

Lemma decode_groups_range (ws : list Z) :
  Forall (fun v => 0 <= v < 64) ws -> Forall (fun b => 0 <= b < 256) (decode_groups ws).
Proof.
  assert (Hgen : forall n vs, (length vs <= n)%nat ->
            Forall (fun v => 0 <= v < 64) vs ->
            Forall (fun b => 0 <= b < 256) (decode_groups vs)).
  { induction n as [|n IH]; intros vs Hl H.
    - destruct vs; simpl in Hl; [apply Forall_nil | lia].
    - destruct vs as [|a [|b [|c [|d rest]]]]; simpl in Hl |- *;
        try apply Forall_nil;
        repeat match goal with
               | H : Forall _ (_ :: _) |- _ => inversion H; subst; clear H
               end;
        repeat (apply Forall_cons; [Z.to_euclidean_division_equations; lia|]);
        try apply Forall_nil.
      apply IH; [lia | assumption]. }
  intros H. apply (Hgen (length ws)); [lia | assumption].
Qed.

Lemma atob_range s codes :
  atob s = Some codes -> Forall (fun b => 0 <= b < 256) codes.
Proof.
  unfold atob. destruct (Nat.eqb _ 1); [discriminate|].
  destruct (all_values _) as [vs|] eqn:Hv; [|discriminate].
  simpl. intros H. inversion H; subst.
  apply decode_groups_range, (all_values_range _ _ Hv).
Qed.

Lemma mod256_id codes :
  Forall (fun b => 0 <= b < 256) codes -> map (fun c => c mod 256) codes = codes.
Proof.
  induction 1 as [|c l Hc _ IH]; [reflexivity|].
  simpl. rewrite IH, Z.mod_small by assumption. reflexivity.
Qed.

Lemma div2_SS n : (S (S n) / 2 = S (n / 2))%nat.
Proof.
  replace (S (S n)) with (n + 1 * 2)%nat by lia.
  rewrite Nat.div_add by lia. lia.
Qed.

Lemma int16_view_length bs : length (int16_view bs) = (length bs / 2)%nat.
Proof.
  revert bs. apply pair_ind; [reflexivity | reflexivity |].
  intros a b l IH. simpl length. rewrite div2_SS. simpl. rewrite IH. reflexivity.
Qed.

Lemma int16_view_firstn bs m :
  (2 * (length bs / 2) <= m)%nat -> int16_view (firstn m bs) = int16_view bs.
Proof.
  revert m. revert bs.
  apply (pair_ind (fun bs => forall m, _ -> int16_view (firstn m bs) = int16_view bs)).
  - intros m _. rewrite firstn_nil. reflexivity.
  - intros x [|m] _; simpl; [reflexivity | rewrite firstn_nil; reflexivity].
  - intros a b l IH m Hm. simpl length in Hm. rewrite div2_SS in Hm.
    destruct m as [|[|m]]; [lia | lia |]. simpl. rewrite IH by lia. reflexivity.
Qed.

Lemma effective_len_ge n :
  (2 * (n / 2) <= (if Nat.odd n then n - 1 else n))%nat.
Proof.
  induction n as [n IH] using (well_founded_induction lt_wf).
  destruct n as [|[|n]]; [simpl; lia | simpl; lia |].
  rewrite Nat.odd_succ_succ, div2_SS. specialize (IH n ltac:(lia)).
  destruct (Nat.odd n) eqn:Ho; [|lia].
  destruct n as [|n]; [discriminate | lia].
Qed.

Lemma int16_view_nth bs i :
  (i < length bs / 2)%nat ->
  nth i (int16_view bs) 0 = le16 (nth (2 * i) bs 0) (nth (2 * i + 1) bs 0).
Proof.
  revert i. revert bs.
  apply (pair_ind (fun bs => forall i, (i < length bs / 2)%nat ->
           nth i (int16_view bs) 0 = le16 (nth (2 * i) bs 0) (nth (2 * i + 1) bs 0))).
  - intros i Hi. simpl in Hi. lia.
  - intros x i Hi. simpl in Hi. lia.
  - intros a b l IH [|i] Hi; [reflexivity|].
    simpl length in Hi. rewrite div2_SS in Hi.
    replace (2 * S i)%nat with (S (S (2 * i))) by lia.
    replace (S (S (2 * i)) + 1)%nat with (S (S (2 * i + 1))) by lia.
    simpl. apply IH. lia.
Qed.

Lemma le16_range b0 b1 :
  0 <= b0 < 256 -> 0 <= b1 < 256 -> -32768 <= le16 b0 b1 <= 32767.
Proof. unfold le16. intros. destruct (Z.leb_spec 32768 (b0 + 256 * b1)); lia. Qed.

Lemma pcmFromCodes_eq codes :
  Forall (fun b => 0 <= b < 256) codes ->
  pcmFromCodes codes =
    if Nat.eqb (length codes / 2) 0 then None
    else Some (mkAudioBuffer 1 24000 (map (fun x => Qmake x 32768) (int16_view codes))).
Proof.
  intros Hr. unfold pcmFromCodes. cbv zeta. rewrite (mod256_id codes Hr).
  rewrite int16_view_firstn by apply effective_len_ge.
  rewrite int16_view_length. reflexivity.
Qed.

Lemma half_zero n : (n / 2 = 0)%nat <-> (n < 2)%nat.
Proof.
  destruct n as [|[|n]]; [simpl; lia | simpl; lia |].
  rewrite div2_SS. lia.
Qed.

Lemma pcmFromCodes_short codes :
  Forall (fun b => 0 <= b < 256) codes -> (length codes < 2)%nat -> pcmFromCodes codes = None.
Proof.
  intros Hr Hl. rewrite (pcmFromCodes_eq codes Hr).
  apply half_zero in Hl. rewrite Hl. reflexivity.
Qed.

Lemma pcmFromCodes_long codes :
  Forall (fun b => 0 <= b < 256) codes -> (2 <= length codes)%nat ->
  pcmFromCodes codes =
    Some (mkAudioBuffer 1 24000 (map (fun x => Qmake x 32768) (int16_view codes))).
Proof.
  intros Hr Hl. rewrite (pcmFromCodes_eq codes Hr).
  destruct (Nat.eqb_spec (length codes / 2) 0) as [H|H]; [|reflexivity].
  apply half_zero in H. lia.
Qed.

Lemma reencode_exact x : reencode (Qmake x 32768) = x.
Proof.
  unfold reencode, Qfloor, Qplus, Qmult, inject_Z. simpl.
  Z.to_euclidean_division_equations. lia.
Qed.

Lemma nth_map_seq (f : nat -> Z) n i :
  (i < n)%nat -> nth i (map f (seq 0 n)) 0 = f i.
Proof.
  intros Hi. rewrite nth_indep with (d' := f 0%nat) by (rewrite length_map, length_seq; assumption).
  rewrite map_nth, seq_nth by assumption. reflexivity.
Qed.

Lemma samples16_int16_view bs : samples16 bs = int16_view bs.
Proof.
  apply nth_ext with (d := 0) (d' := 0).
  - unfold samples16. rewrite length_map, length_seq, int16_view_length. reflexivity.
  - intros i Hi. unfold samples16 in *. rewrite length_map, length_seq in Hi.
    rewrite int16_view_nth by assumption.
    rewrite (nth_map_seq (fun i => le16 (nth (2 * i) bs 0) (nth (2 * i + 1) bs 0)))
      by assumption.
    reflexivity.
Qed.

Lemma nth_byte_range codes j :
  Forall (fun b => 0 <= b < 256) codes -> 0 <= nth j codes 0 < 256.
Proof.
  intros H. destruct (Nat.lt_ge_cases j (length codes)) as [Hj|Hj].
  - rewrite Forall_forall in H. apply H, nth_In. assumption.
  - rewrite nth_overflow by assumption. lia.
Qed.

Lemma sample_bounds x : -32768 <= x <= 32767 -> (-1 <= Qmake x 32768 <= 1)%Q.
Proof. intros Hx. unfold Qle. simpl. lia. Qed.

(** Claim C6, as the code has it: a payload that decodes to one byte has
    an odd byte count, and [decodePCM] throws on it: the dropped byte leaves
    no sample, and [createBuffer(1, 0, 24000)] throws. The same holds for
    the empty payload, and [atob] throws on a payload that is not base64. *)
Lemma decodePCM_short_counterexample :
  atob "AA=="%string = Some [0] /\ Nat.odd (length [0]) = true /\
  decodePCM "AA=="%string = None /\
  atob EmptyString = Some [] /\ decodePCM EmptyString = None /\
  atob "A"%string = None /\ decodePCM "A"%string = None.
Proof. vm_compute. repeat split. Qed.

(** Claim C6 (amended): let [atob] decode [base64Data] to the bytes
    [codes]. With fewer than 2 bytes [decodePCM] throws (no buffer). With
    2 bytes or more, whatever the parity of the byte count, it returns a
    mono 24 kHz buffer of [length codes / 2] samples (an odd final byte is
    dropped), sample [i] being the signed 16-bit little-endian integer of
    bytes [2i] and [2i+1] divided by 32768, hence within [-1, 1]. In both
    cases the outcome depends only on the decoded bytes. *)
Theorem decodePCM_spec (base64Data : string) (codes : list Z)
  (Hatob : atob base64Data = Some codes) :
  ((length codes < 2)%nat -> decodePCM base64Data = None) /\
  ((2 <= length codes)%nat ->
   exists buf,
     decodePCM base64Data = Some buf /\
     numberOfChannels buf = 1%nat /\ sampleRate buf = 24000 /\
     length (channel0 buf) = (length codes / 2)%nat /\
     (forall i, (i < length codes / 2)%nat ->
        nth i (channel0 buf) 0%Q =
          Qmake (le16 (nth (2 * i) codes 0) (nth (2 * i + 1) codes 0)) 32768 /\
        (-1 <= nth i (channel0 buf) 0%Q <= 1)%Q)) /\
  (forall other, atob other = Some codes -> decodePCM other = decodePCM base64Data).
Proof.
  pose proof (atob_range _ _ Hatob) as Hr.
  unfold decodePCM. rewrite Hatob. split; [|split].
  - apply pcmFromCodes_short, Hr.
  - intros Hl. rewrite (pcmFromCodes_long codes Hr Hl).
    eexists. split; [reflexivity|]. cbn [numberOfChannels sampleRate channel0].
    split; [reflexivity|]. split; [reflexivity|]. split.
    + rewrite length_map, int16_view_length. reflexivity.
    + intros i Hi.
      assert (Hn : nth i (map (fun x => Qmake x 32768) (int16_view codes)) 0%Q =
                   Qmake (le16 (nth (2 * i) codes 0) (nth (2 * i + 1) codes 0)) 32768).
      { rewrite nth_indep with (d' := Qmake 0 32768)
          by (rewrite length_map, int16_view_length; assumption).
        rewrite (map_nth (fun x => Qmake x 32768)), int16_view_nth by assumption.
        reflexivity. }
      rewrite Hn. split; [reflexivity|].
      apply sample_bounds, le16_range; apply nth_byte_range, Hr.
  - intros other Ho. rewrite Ho. reflexivity.
Qed.

(** Witness for C6 on "AAEC", which decodes to the odd-length byte
    sequence [0; 1; 2]: the trailing byte is dropped. *)
Lemma decodePCM_spec_witness :
  atob "AAEC"%string = Some [0; 1; 2] /\
  exists buf,
    decodePCM "AAEC"%string = Some buf /\
    numberOfChannels buf = 1%nat /\ sampleRate buf = 24000 /\
    length (channel0 buf) = (length [0; 1; 2] / 2)%nat /\
    (forall i, (i < length [0; 1; 2] / 2)%nat ->
       nth i (channel0 buf) 0%Q =
         Qmake (le16 (nth (2 * i) [0; 1; 2] 0) (nth (2 * i + 1) [0; 1; 2] 0)) 32768 /\
       (-1 <= nth i (channel0 buf) 0%Q <= 1)%Q).
Proof.
  split; [reflexivity|].
  apply (proj1 (proj2 (decodePCM_spec "AAEC"%string [0; 1; 2] eq_refl))).
  simpl. lia.
Defined.

Lemma reencode_within_one (l : list Q) :
  Forall2 (fun x n => Z.abs (reencode x - n) <= 1) l (map reencode l).
Proof. induction l as [|x l IH]; constructor; [lia | exact IH]. Qed.

(** Claim C7, as the code has it: the empty byte sequence has even length,
    but its decoding throws ([createBuffer] with a length of 0), so there
    are no decoded samples to re-encode. *)
Lemma pcm_empty_counterexample :
  Nat.even (length (@nil Z)) = true /\ pcmFromCodes [] = None.
Proof. split; reflexivity. Qed.

(** Claim C7 (amended): the empty byte sequence yields no buffer; every
    non-empty even-length sequence of bytes yields a buffer, and
    re-encoding its samples with [Math.round(x * 32768)] gives back the
    signed 16-bit little-endian values of the byte pairs exactly, in
    particular within one least-significant bit. *)
Theorem pcm_reencode_roundtrip (bytes : list Z)
  (Heven : Nat.even (length bytes) = true)
  (Hbytes : Forall (fun b => 0 <= b < 256) bytes) :
  (bytes = [] -> pcmFromCodes bytes = None) /\
  (bytes <> [] ->
   exists buf,
     pcmFromCodes bytes = Some buf /\
     map reencode (channel0 buf) = samples16 bytes /\
     Forall2 (fun x n => Z.abs (reencode x - n) <= 1) (channel0 buf) (samples16 bytes)).
Proof.
  split.
  - intros ->. reflexivity.
  - intros Hne. assert (Hl : (2 <= length bytes)%nat).
    { destruct bytes as [|b0 [|b1 r]]; [congruence | discriminate | simpl; lia]. }
    rewrite (pcmFromCodes_long bytes Hbytes Hl). eexists. split; [reflexivity|].
    cbn [channel0]. rewrite samples16_int16_view.
    assert (Hm : map reencode (map (fun x => Qmake x 32768) (int16_view bytes)) =
                 int16_view bytes).
    { rewrite map_map. rewrite <- (map_id (int16_view bytes)) at 2.
      apply map_ext. apply reencode_exact. }
    split; [assumption|]. rewrite <- Hm at 2. apply reencode_within_one.
Qed.

(** Witness for C7 on the bytes [0x00; 0x80; 0xff; 0x7f]
    (the extreme samples -32768 and 32767). *)
Lemma pcm_reencode_roundtrip_witness :
  Nat.even (length [0; 128; 255; 127]) = true /\
  Forall (fun b => 0 <= b < 256) [0; 128; 255; 127] /\
  exists buf,
    pcmFromCodes [0; 128; 255; 127] = Some buf /\
    map reencode (channel0 buf) = samples16 [0; 128; 255; 127] /\
    Forall2 (fun x n => Z.abs (reencode x - n) <= 1) (channel0 buf)
            (samples16 [0; 128; 255; 127]).
Proof.
  assert (Hr : Forall (fun b => 0 <= b < 256) [0; 128; 255; 127])
    by (repeat constructor; lia).
  split; [reflexivity|]. split; [exact Hr|].
  apply (proj2 (pcm_reencode_roundtrip [0; 128; 255; 127] eq_refl Hr)). discriminate.
Defined.

End PcmProofs.

Module OrchestratorProofs.

Import Sources Orchestrator.

Lemma summaryPromise_resolves svc :
  exists fs, summaryPromise svc = (fst (fast_resp svc), Resolved fs).
Proof.
  unfold summaryPromise, generateFastSummary.
  destruct (snd (fast_resp svc)) as [t|e]; eexists; reflexivity.
Qed.

Lemma errorMessage_classified m :
  In (errorMessage m)
     [genericMessage; rateLimitMessage; unavailableMessage; configMessage;
      safetyMessage; malformedMessage] \/
  exists detail, errorMessage m = ("Analysis failed: " ++ detail)%string.
Proof.
  unfold errorMessage.
  destruct (String.eqb m ""); [left; simpl; tauto|].
  destruct (_ || _)%bool; [left; simpl; tauto|].
  destruct (_ || _)%bool; [left; simpl; tauto|].
  destruct (_ || _)%bool; [left; simpl; tauto|].
  destruct (_ || _)%bool; [left; simpl; tauto|].
  destruct (includes _ _); [left; simpl; tauto|].
  right. eexists. reflexivity.
Qed.

(** Shape of the state once the join has succeeded. *)
Lemma handleFormSubmit_after_join data svc s0 t tj fs rep :
  promise_all2 (summaryPromise svc) (reportPromise svc) = (tj, Resolved (fs, rep)) ->
  (tj <= t)%nat ->
  let s := handleFormSubmit data svc s0 t in
  appState s = REPORT /\ error s = None /\ userProfile s = data /\
  (report s = Some (set_summary fs rep) \/
   exists img tv, visualPromise svc = (tv, Resolved (Some img)) /\ img <> ""%string /\
                  report s = Some (set_visual img (set_summary fs rep))) /\
  (reportAudio s = None \/
   exists a ta, audioPromise svc = (ta, Resolved a) /\ reportAudio s = Some a).
Proof.
  intros Hj Ht. unfold handleFormSubmit. rewrite Hj.
  destruct (Nat.ltb_spec t tj) as [Hlt|_]; [lia|].
  destruct (visualPromise svc) as [tv [[img|]|ev]] eqn:Hv;
    [destruct ((Nat.max tv tj <=? t)%nat && negb (String.eqb img ""))%bool eqn:Hb|..];
    destruct (audioPromise svc) as [ta [a|ea]] eqn:Ha;
    try destruct ((Nat.max ta tj <=? t)%nat && negb (String.eqb a ""))%bool;
    simpl; repeat split; eauto 6;
    right; exists img, tv; (split; [reflexivity|]); (split; [|reflexivity]);
    apply andb_true_iff in Hb; destruct Hb as [_ Hb]; apply negb_true_iff in Hb;
    apply String.eqb_neq; exact Hb.
Qed.

Lemma handleFormSubmit_before_join data svc s0 t :
  (t < fst (promise_all2 (summaryPromise svc) (reportPromise svc)))%nat ->
  handleFormSubmit data svc s0 t =
  with_audio None (with_error None (with_state LOADING (with_profile data s0))).
Proof.
  intros Ht. unfold handleFormSubmit.
  destruct (promise_all2 _ _) as [tj [[fs rep]|e]]; simpl in Ht;
    destruct (Nat.ltb_spec t tj); try reflexivity; lia.
Qed.

Lemma join_shape svc :
  exists fs,
    snd (summaryPromise svc) = Resolved fs /\
    match snd (reportPromise svc) with
    | Resolved rep =>
        promise_all2 (summaryPromise svc) (reportPromise svc) =
          (Nat.max (fst (fast_resp svc)) (fst (report_resp svc)), Resolved (fs, rep))
    | Rejected e =>
        promise_all2 (summaryPromise svc) (reportPromise svc) =
          (fst (report_resp svc), Rejected e)
    end.
Proof.
  destruct (summaryPromise_resolves svc) as [fs Hsp]. exists fs.
  rewrite Hsp. split; [reflexivity|].
  unfold reportPromise. simpl.
  destruct (generateHealthReport svc (snd (report_resp svc))); reflexivity.
Qed.

(** Claim C1: for every submission, the image, fast-summary and full-report
    requests start at once and the narration request starts when the fast
    summary resolves, with that summary's text; the report screen is only
    reached once both the fast summary and the full report have resolved
    (AND-join), and it is reached as soon as both have; the displayed
    report is the full report whose summary field is replaced by the fast
    summary's text (with the image attached when it arrives). *)
Theorem submit_joins_summary_and_report (data : UserProfile) (svc : Service) (s0 : App) :
  In (CallVisual data, 0%nat) (launches data svc) /\
  In (CallFastSummary data, 0%nat) (launches data svc) /\
  In (CallReport data, 0%nat) (launches data svc) /\
  (forall fs, snd (summaryPromise svc) = Resolved fs ->
     In (CallTts (Narration.safeText fs), fst (fast_resp svc)) (launches data svc)) /\
  (forall t, appState (handleFormSubmit data svc s0 t) = REPORT ->
     (fst (fast_resp svc) <= t)%nat /\ (fst (report_resp svc) <= t)%nat /\
     exists fs rep r,
       snd (summaryPromise svc) = Resolved fs /\
       snd (reportPromise svc) = Resolved rep /\
       report (handleFormSubmit data svc s0 t) = Some r /\
       summary r = fs /\
       (r = set_summary fs rep \/ exists img, r = set_visual img (set_summary fs rep))) /\
  (forall t fs rep,
     snd (summaryPromise svc) = Resolved fs ->
     snd (reportPromise svc) = Resolved rep ->
     (fst (fast_resp svc) <= t)%nat -> (fst (report_resp svc) <= t)%nat ->
     appState (handleFormSubmit data svc s0 t) = REPORT).
Proof.
  destruct (summaryPromise_resolves svc) as [fs0 Hsp].
  destruct (join_shape svc) as [fs1 [Hfs1 Hj]].
  rewrite Hsp in Hfs1. simpl in Hfs1. inversion Hfs1; subst fs1.
  split; [simpl; tauto|]. split; [simpl; tauto|]. split; [simpl; tauto|]. split.
  { intros fs Hfs. unfold launches. rewrite Hsp in *. simpl in Hfs. inversion Hfs; subst.
    simpl. tauto. }
  destruct (snd (reportPromise svc)) as [rep|e] eqn:Hrep.
  - split.
    + intros t Hst.
      destruct (Nat.lt_ge_cases t (Nat.max (fst (fast_resp svc)) (fst (report_resp svc)))) as [Hlt|Hge].
      { rewrite handleFormSubmit_before_join in Hst by (rewrite Hj; assumption).
        discriminate. }
      split; [lia|]. split; [lia|].
      destruct (handleFormSubmit_after_join data svc s0 t _ fs0 rep Hj Hge)
        as [_ [_ [_ [Hr _]]]].
      destruct Hr as [Hr | [img [tv [_ [_ Hr]]]]]; rewrite Hr;
        do 3 eexists; (split; [rewrite Hsp; reflexivity|]); (split; [reflexivity|]);
        (split; [reflexivity|]); (split; [reflexivity| eauto]).
    + intros t fs rep' Hfs Hrep' H1 H2. rewrite Hrep' in Hrep. inversion Hrep; subst.
      apply (handleFormSubmit_after_join data svc s0 t _ fs0 rep Hj). lia.
  - split.
    + intros t Hst.
      destruct (Nat.lt_ge_cases t (fst (report_resp svc))) as [Hlt|Hge].
      { rewrite handleFormSubmit_before_join in Hst by (rewrite Hj; assumption).
        discriminate. }
      unfold handleFormSubmit in Hst. rewrite Hj in Hst.
      destruct (Nat.ltb_spec t (fst (report_resp svc))); [lia|]. discriminate.
    + intros t fs rep' _ Hrep'. congruence.
Qed.

(** Claim C2: when the full-report call rejects (the request fails, or its
    text does not parse), the submission fails as a whole: from the
    rejection on the app is in the error state with a classified
    user-visible message (rate limit, unavailable service, configuration,
    safety, malformed response, or unknown), and the report state is never
    touched, so no partial draft appears. *)
Theorem submit_report_rejection (data : UserProfile) (svc : Service) (s0 : App)
  (e : string) (Hrej : snd (reportPromise svc) = Rejected e) :
  forall t,
    report (handleFormSubmit data svc s0 t) = report s0 /\
    ((t < fst (report_resp svc))%nat ->
       appState (handleFormSubmit data svc s0 t) = LOADING /\
       error (handleFormSubmit data svc s0 t) = None) /\
    ((fst (report_resp svc) <= t)%nat ->
       appState (handleFormSubmit data svc s0 t) = ERROR /\
       error (handleFormSubmit data svc s0 t) = Some (errorMessage e)) /\
    (In (errorMessage e)
        [genericMessage; rateLimitMessage; unavailableMessage; configMessage;
         safetyMessage; malformedMessage] \/
     exists detail, errorMessage e = ("Analysis failed: " ++ detail)%string).
Proof.
  intros t. destruct (join_shape svc) as [fs [_ Hj]]. rewrite Hrej in Hj.
  split; [|split; [|split]].
  - unfold handleFormSubmit. rewrite Hj.
    destruct (t <? fst (report_resp svc))%nat; reflexivity.
  - intros Ht. rewrite handleFormSubmit_before_join by (rewrite Hj; assumption).
    split; reflexivity.
  - intros Ht. unfold handleFormSubmit. rewrite Hj.
    destruct (Nat.ltb_spec t (fst (report_resp svc))); [lia|]. split; reflexivity.
  - apply errorMessage_classified.
Qed.

(** Claim C3: when the fast summary and the full report succeed, the
    submission succeeds from the join on whatever the image and narration
    calls do: the app shows the report, no error is set; if the image call
    failed the report stays exactly the joined report (no image attached),
    and if the narration call failed no audio is ever attached. *)
Theorem submit_optional_failures (data : UserProfile) (svc : Service) (s0 : App)
  (fs : string) (rep : HealthReport)
  (Hfs : snd (summaryPromise svc) = Resolved fs)
  (Hrep : snd (reportPromise svc) = Resolved rep) :
  forall t, (Nat.max (fst (fast_resp svc)) (fst (report_resp svc)) <= t)%nat ->
    appState (handleFormSubmit data svc s0 t) = REPORT /\
    error (handleFormSubmit data svc s0 t) = None /\
    (visual_failed svc ->
       report (handleFormSubmit data svc s0 t) = Some (set_summary fs rep)) /\
    ((exists ea, snd (audioPromise svc) = Rejected ea) ->
       reportAudio (handleFormSubmit data svc s0 t) = None).
Proof.
  intros t Ht. destruct (join_shape svc) as [fs' [Hfs' Hj]].
  rewrite Hfs in Hfs'. inversion Hfs'; subst fs'. rewrite Hrep in Hj.
  destruct (handleFormSubmit_after_join data svc s0 t _ fs rep Hj Ht)
    as [Hst [Herr [_ [Hr Ha]]]].
  split; [exact Hst|]. split; [exact Herr|]. split.
  - intros Hv. destruct Hr as [Hr | [img [tv [Hvp [Hne _]]]]]; [exact Hr|].
    exfalso. unfold visual_failed in Hv. unfold visualPromise in Hvp.
    destruct (snd (visual_resp svc)) as [[i|]|ev]; simpl in Hvp;
      inversion Hvp; subst; contradiction.
  - intros [ea Hea]. destruct Ha as [Ha | [a [ta [Hap _]]]]; [exact Ha|].
    rewrite Hap in Hea. discriminate.
Qed.

Lemma submit_report_rejection_witness :
  snd (reportPromise rateLimitedService) =
    Rejected "429 Resource has been exhausted"%string /\
  appState (handleFormSubmit exampleProfile rateLimitedService exampleApp 12) = ERROR /\
  error (handleFormSubmit exampleProfile rateLimitedService exampleApp 12) =
    Some rateLimitMessage.
Proof.
  split; [reflexivity|].
  destruct (submit_report_rejection exampleProfile rateLimitedService exampleApp
              "429 Resource has been exhausted"%string eq_refl 12)
    as [_ [_ [H _]]].
  destruct H as [H1 H2]; [simpl; lia|].
  split; [exact H1|]. rewrite H2. reflexivity.
Defined.

Lemma submit_optional_failures_witness :
  snd (summaryPromise optionalFailService) = Resolved "Quick summary"%string /\
  snd (reportPromise optionalFailService) =
    Resolved (set_sources_date [] "2026-01-01T00:00:00.000Z" exampleReport) /\
  appState (handleFormSubmit exampleProfile optionalFailService exampleApp 12) = REPORT /\
  report (handleFormSubmit exampleProfile optionalFailService exampleApp 12) =
    Some (set_summary "Quick summary"
            (set_sources_date [] "2026-01-01T00:00:00.000Z" exampleReport)) /\
  reportAudio (handleFormSubmit exampleProfile optionalFailService exampleApp 12) = None.
Proof.
  split; [reflexivity|]. split; [reflexivity|].
  destruct (submit_optional_failures exampleProfile optionalFailService exampleApp
              "Quick summary"%string
              (set_sources_date [] "2026-01-01T00:00:00.000Z" exampleReport)
              eq_refl eq_refl 12) as [H1 [_ [H3 H4]]];
    [simpl; lia|].
  split; [exact H1|]. split.
  - apply H3. simpl. exact I.
  - apply H4. exists "500 Internal"%string. reflexivity.
Defined.

End OrchestratorProofs.

Module JsonCleanProofs.

Import JsonClean.
(** *** Characters *)

Ltac split_andb :=
  repeat match goal with
         | H : (_ && _)%bool = true |- _ => apply andb_true_iff in H as [? ?]
         end.

Lemma forallb_imp (f g : ascii -> bool) l :
  (forall c, f c = true -> g c = true) -> forallb f l = true -> forallb g l = true.
Proof.
  intros Hfg. induction l as [|c l IH]; simpl; [reflexivity|].
  intros H. apply andb_true_iff in H as [H1 H2]. rewrite (Hfg c H1), IH by exact H2.
  reflexivity.
Qed.

Lemma json_ws_facts c :
  json_ws c = true ->
  js_ws c = true /\ is_close c = false /\ no_comma c = true /\ no_tick c = true.
Proof.
  destruct c as [[] [] [] [] [] [] [] []]; intros H;
    try discriminate H; vm_compute; repeat split.
Qed.

Lemma js_ws_facts c :
  js_ws c = true ->
  Ascii.eqb c ","%char = false /\ is_digit c = false /\ Ascii.eqb c "."%char = false /\
  (Ascii.eqb c "e"%char || Ascii.eqb c "E"%char)%bool = false.
Proof.
  destruct c as [[] [] [] [] [] [] [] []]; intros H;
    try discriminate H; vm_compute; repeat split.
Qed.

(** The characters of a printed number. *)
Definition num_char (c : ascii) : bool :=
  (is_digit c || Ascii.eqb c "."%char || Ascii.eqb c "-"%char || Ascii.eqb c "+"%char ||
   Ascii.eqb c "e"%char || Ascii.eqb c "E"%char)%bool.

Lemma num_char_facts c : num_char c = true -> no_comma c = true /\ no_tick c = true.
Proof.
  destruct c as [[] [] [] [] [] [] [] []]; intros H;
    try discriminate H; vm_compute; repeat split.
Qed.

Lemma hex_facts c : is_hex c = true -> Ascii.eqb c ","%char = false /\ no_tick c = true.
Proof.
  destruct c as [[] [] [] [] [] [] [] []]; intros H;
    try discriminate H; vm_compute; repeat split.
Qed.

Lemma escape_facts c : simple_escape c = true -> Ascii.eqb c ","%char = false /\ no_tick c = true.
Proof.
  destruct c as [[] [] [] [] [] [] [] []]; intros H;
    try discriminate H; vm_compute; repeat split.
Qed.

Lemma head_facts c :
  head_ok c = true ->
  is_close c = false /\ js_ws c = false /\ json_ws c = false /\ Ascii.eqb c ","%char = false.
Proof.
  unfold head_ok. intros H. split_andb. apply negb_true_iff in H, H2, H1, H0.
  repeat split; assumption.
Qed.

Lemma ws_no_comma w : ws w = true -> forallb no_comma w = true.
Proof. apply forallb_imp. intros c H. apply (json_ws_facts c H). Qed.

Lemma ws_no_tick w : ws w = true -> forallb no_tick w = true.
Proof. apply forallb_imp. intros c H. apply (json_ws_facts c H). Qed.

(** *** Removing the trailing commas *)

Lemma rtc_app a r :
  forallb no_comma a = true ->
  removeTrailingCommas (a ++ r) = a ++ removeTrailingCommas r.
Proof.
  induction a as [|c a IH]; simpl; [reflexivity|].
  intros H. apply andb_true_iff in H as [H1 H2]. unfold no_comma in H1.
  apply negb_true_iff in H1. rewrite H1. simpl. rewrite IH by exact H2. reflexivity.
Qed.

Lemma rtc_cons c r :
  Ascii.eqb c ","%char = false ->
  removeTrailingCommas (c :: r) = c :: removeTrailingCommas r.
Proof. intros H. simpl. rewrite H. reflexivity. Qed.

Lemma rtc_comma_drop r :
  closeAhead r = true -> removeTrailingCommas (","%char :: r) = removeTrailingCommas r.
Proof. intros H. simpl. rewrite H. reflexivity. Qed.

Lemma rtc_comma_keep r :
  closeAhead r = false ->
  removeTrailingCommas (","%char :: r) = ","%char :: removeTrailingCommas r.
Proof. intros H. simpl. rewrite H. reflexivity. Qed.

Lemma closeAhead_ws w r : ws w = true -> closeAhead (w ++ r) = closeAhead r.
Proof.
  induction w as [|c w IH]; simpl; [reflexivity|]. intros H.
  apply andb_true_iff in H as [H1 H2]. destruct (json_ws_facts c H1) as [Hj [Hc _]].
  rewrite Hc, Hj. apply IH, H2.
Qed.

Lemma closeAhead_head c r : head_ok c = true -> closeAhead (c :: r) = false.
Proof.
  intros H. destruct (head_facts c H) as [Hc [Hj _]]. simpl. rewrite Hc, Hj. reflexivity.
Qed.

Lemma skipWs_ws w r : ws w = true -> skipWs (w ++ r) = skipWs r.
Proof.
  induction w as [|c w IH]; simpl; [reflexivity|]. intros H.
  apply andb_true_iff in H as [H1 H2]. rewrite H1. apply IH, H2.
Qed.

Lemma skipWs_stop c r : json_ws c = false -> skipWs (c :: r) = c :: r.
Proof. intros H. simpl. rewrite H. reflexivity. Qed.

Lemma skipWs_idem s : skipWs (skipWs s) = skipWs s.
Proof.
  induction s as [|c s IH]; simpl; [reflexivity|].
  destruct (json_ws c) eqn:E; [exact IH|]. simpl. rewrite E. reflexivity.
Qed.

(** *** The recogniser ignores leading white space *)

Lemma pvalue_skipWs f s : pvalue f (skipWs s) = pvalue f s.
Proof. destruct f; [reflexivity|]. cbn [pvalue]. rewrite skipWs_idem. reflexivity. Qed.

Lemma pmembers_skipWs f s : pmembers f (skipWs s) = pmembers f s.
Proof. destruct f; [reflexivity|]. cbn [pmembers]. rewrite skipWs_idem. reflexivity. Qed.

Lemma pvalue_ws f w s : ws w = true -> pvalue f (w ++ s) = pvalue f s.
Proof.
  intros H. rewrite <- pvalue_skipWs, skipWs_ws by exact H. apply pvalue_skipWs.
Qed.

Lemma pmembers_ws f w s : ws w = true -> pmembers f (w ++ s) = pmembers f s.
Proof.
  intros H. rewrite <- pmembers_skipWs, skipWs_ws by exact H. apply pmembers_skipWs.
Qed.

Lemma pelems_skipWs f s : pelems f (skipWs s) = pelems f s.
Proof. destruct f; [reflexivity|]. cbn [pelems]. rewrite pvalue_skipWs. reflexivity. Qed.

Lemma pelems_ws f w s : ws w = true -> pelems f (w ++ s) = pelems f s.
Proof.
  intros H. rewrite <- pelems_skipWs, skipWs_ws by exact H. apply pelems_skipWs.
Qed.

Lemma pvalue_arr f s :
  pvalue (S f) ("["%char :: s) =
  match skipWs s with
  | d :: r' => if Ascii.eqb d "]"%char then Some r' else pelems f (d :: r')
  | [] => None
  end.
Proof. reflexivity. Qed.

Lemma pvalue_obj f s :
  pvalue (S f) ("{"%char :: s) =
  match skipWs s with
  | d :: r' => if Ascii.eqb d "}"%char then Some r' else pmembers f (d :: r')
  | [] => None
  end.
Proof. reflexivity. Qed.

Lemma pvalue_str f s : pvalue (S f) (dquote :: s) = pstring s.
Proof. reflexivity. Qed.

Lemma pmembers_str f s :
  pmembers (S f) (dquote :: s) =
  match pstring s with
  | None => None
  | Some r1 =>
      match skipWs r1 with
      | ":"%char :: r2 =>
          match pvalue f r2 with
          | None => None
          | Some r3 =>
              match skipWs r3 with
              | ","%char :: r4 => pmembers f r4
              | "}"%char :: r4 => Some r4
              | _ => None
              end
          end
      | _ => None
      end
  end.
Proof. reflexivity. Qed.

(** *** String literals *)

Lemma print_str_app k r : print_str k ++ r = dquote :: str_body k ++ dquote :: r.
Proof. unfold print_str. simpl. rewrite <- app_assoc. reflexivity. Qed.

Lemma pstring_char c r :
  sitem_wf (SChar c) = true -> pstring (c :: r) = pstring r.
Proof.
  unfold sitem_wf. intros H. split_andb.
  repeat match goal with Hn : negb _ = true |- _ => apply negb_true_iff in Hn end.
  apply Nat.leb_le in H. cbn [pstring].
  repeat match goal with
         | Hn : Ascii.eqb ?x ?y = false |- context [Ascii.eqb ?x ?y] => rewrite Hn
         end.
  destruct (Nat.ltb_spec (nat_of_ascii c) 32); [lia|reflexivity].
Qed.

(** Removing commas inside a string literal keeps it a string literal. *)
Lemma pstring_body cs r :
  forallb sitem_wf cs = true ->
  pstring (removeTrailingCommas (str_body cs ++ r)) = pstring (removeTrailingCommas r).
Proof.
  induction cs as [|i cs IH]; [reflexivity|]. simpl. intros H.
  apply andb_true_iff in H as [Hi Hcs]. rewrite <- app_assoc.
  destruct i as [c|c|h1 h2 h3 h4]; cbn [print_sitem app].
  - destruct (Ascii.eqb c ","%char) eqn:Ec.
    + apply Ascii.eqb_eq in Ec. subst c.
      destruct (closeAhead (str_body cs ++ r)) eqn:Eca.
      * rewrite rtc_comma_drop by exact Eca. apply IH, Hcs.
      * rewrite rtc_comma_keep by exact Eca. rewrite pstring_char by exact Hi.
        apply IH, Hcs.
    + rewrite rtc_cons by exact Ec. rewrite pstring_char by exact Hi. apply IH, Hcs.
  - simpl in Hi. rewrite rtc_cons by reflexivity.
    rewrite rtc_cons by apply (escape_facts c Hi).
    simpl. rewrite Hi. apply IH, Hcs.
  - simpl in Hi. split_andb.
    rewrite rtc_cons by reflexivity. rewrite rtc_cons by reflexivity.
    rewrite rtc_cons by apply (hex_facts h1 H).
    rewrite rtc_cons by apply (hex_facts h2 H2).
    rewrite rtc_cons by apply (hex_facts h3 H1).
    rewrite rtc_cons by apply (hex_facts h4 H0).
    simpl. rewrite H, H2, H1, H0. apply IH, Hcs.
Qed.

(** *** Numbers *)

Definition no_digit_head (r : list ascii) : Prop :=
  match r with [] => True | c :: _ => is_digit c = false end.
Definition no_dot_head (r : list ascii) : Prop :=
  match r with [] => True | c :: _ => Ascii.eqb c "."%char = false end.
Definition no_exp_head (r : list ascii) : Prop :=
  match r with
  | [] => True
  | c :: _ => (Ascii.eqb c "e"%char || Ascii.eqb c "E"%char)%bool = false
  end.

Lemma follow_heads r : follow r -> no_digit_head r /\ no_dot_head r /\ no_exp_head r.
Proof.
  destruct r as [|c r]; simpl; [tauto|].
  intros [->|[->|[->|H]]]; [vm_compute; repeat split ..|].
  destruct (js_ws_facts c H) as [_ [H1 [H2 H3]]]. repeat split; assumption.
Qed.

Lemma skipDigits_map ds r : no_digit_head r -> skipDigits (map digit_char ds ++ r) = r.
Proof.
  intros Hr. induction ds as [|d ds IH].
  - destruct r as [|c r]; [reflexivity|]. simpl in Hr |- *. rewrite Hr. reflexivity.
  - destruct d; exact IH.
Qed.

Lemma pdigits_digit d r : pdigits (digit_char d :: r) = Some (skipDigits r).
Proof. destruct d; reflexivity. Qed.

Lemma pexp_print ex r :
  exp_wf ex = true -> no_digit_head r -> no_exp_head r -> pexp (print_exp ex ++ r) = Some r.
Proof.
  intros Hwf Hd He. destruct ex as [[l sg ld lds]|].
  - simpl in Hwf. apply andb_true_iff in Hwf as [Hl Hs]. simpl. rewrite Hl.
    assert (Hsg : psign ((match sg with Some c => [c] | None => [] end) ++
                         digit_char ld :: map digit_char lds ++ r) =
                  digit_char ld :: map digit_char lds ++ r).
    { destruct sg as [c|].
      - simpl. rewrite Hs. reflexivity.
      - destruct ld; reflexivity. }
    rewrite <- app_assoc, <- app_comm_cons, Hsg, pdigits_digit, skipDigits_map by exact Hd.
    reflexivity.
  - destruct r as [|c r]; [reflexivity|]. simpl in He |- *. rewrite He. reflexivity.
Qed.

Lemma exp_heads ex r :
  exp_wf ex = true -> no_digit_head r -> no_dot_head r ->
  no_digit_head (print_exp ex ++ r) /\ no_dot_head (print_exp ex ++ r).
Proof.
  intros Hwf Hd Ht. destruct ex as [[l sg ld lds]|]; [|split; assumption].
  simpl in Hwf |- *. apply andb_true_iff in Hwf as [Hl _].
  apply orb_true_iff in Hl as [Hl|Hl]; apply Ascii.eqb_eq in Hl; subst l; split; reflexivity.
Qed.

Lemma pfrac_print frac r :
  no_digit_head r -> no_dot_head r -> pfrac (print_frac frac ++ r) = Some r.
Proof.
  intros Hd Ht. destruct frac as [[d ds]|].
  - destruct d; simpl; rewrite skipDigits_map by exact Hd; reflexivity.
  - destruct r as [|c r]; [reflexivity|]. simpl in Ht |- *. rewrite Ht. reflexivity.
Qed.

Lemma frac_head frac r : no_digit_head r -> no_digit_head (print_frac frac ++ r).
Proof. intros H. destruct frac as [[d ds]|]; [reflexivity|exact H]. Qed.

Lemma pint_print lead ds r :
  (match lead, ds with D0, _ :: _ => false | _, _ => true end) = true ->
  no_digit_head r -> pint (digit_char lead :: map digit_char ds ++ r) = Some r.
Proof.
  intros Hl Hd. destruct lead;
    try (destruct ds; [reflexivity|discriminate]);
    (unfold pint; simpl; rewrite skipDigits_map by exact Hd; reflexivity).
Qed.

Lemma pminus_print (neg : bool) lead r :
  pminus ((if neg then ["-"%char] else []) ++ digit_char lead :: r) = digit_char lead :: r.
Proof. destruct neg, lead; reflexivity. Qed.

Lemma pnumber_print neg lead ds frac ex r :
  (match lead, ds with D0, _ :: _ => false | _, _ => true end) = true ->
  exp_wf ex = true -> follow r ->
  pnumber (print_num neg lead ds frac ex ++ r) = Some r.
Proof.
  intros Hl He Hf. destruct (follow_heads r Hf) as [Hd [Ht Hx]].
  destruct (exp_heads ex r He Hd Ht) as [Hd' Ht'].
  unfold pnumber, print_num.
  repeat (rewrite <- app_assoc || rewrite <- app_comm_cons).
  rewrite pminus_print, pint_print by (exact Hl || apply frac_head, Hd').
  rewrite pfrac_print by assumption. apply pexp_print; assumption.
Qed.

Lemma pvalue_num f neg lead ds frac ex r :
  pvalue (S f) (print_num neg lead ds frac ex ++ r) = pnumber (print_num neg lead ds frac ex ++ r).
Proof. destruct neg, lead; reflexivity. Qed.

Lemma digits_num_char ds : forallb num_char (map digit_char ds) = true.
Proof. induction ds as [|d ds IH]; [reflexivity|]. destruct d; exact IH. Qed.

Lemma print_num_chars neg lead ds frac ex :
  exp_wf ex = true -> forallb num_char (print_num neg lead ds frac ex) = true.
Proof.
  intros He. unfold print_num. rewrite forallb_app.
  assert (Hn : forallb num_char (if neg then ["-"%char] else []) = true)
    by (destruct neg; reflexivity).
  rewrite Hn. simpl. rewrite forallb_app, forallb_app, digits_num_char.
  assert (Hlead : num_char (digit_char lead) = true) by (destruct lead; reflexivity).
  assert (Hf : forallb num_char (print_frac frac) = true).
  { destruct frac as [[d ds']|]; [|reflexivity]. simpl.
    rewrite digits_num_char. destruct d; reflexivity. }
  assert (Hx : forallb num_char (print_exp ex) = true).
  { destruct ex as [[l sg ld lds]|]; [|reflexivity]. simpl in He |- *.
    apply andb_true_iff in He as [Hl Hs]. rewrite forallb_app. simpl.
    rewrite digits_num_char.
    assert (Hsg : forallb num_char (match sg with Some c => [c] | None => [] end) = true).
    { destruct sg as [c|]; [|reflexivity].
      apply orb_true_iff in Hs as [Hs|Hs]; apply Ascii.eqb_eq in Hs; subst c; reflexivity. }
    rewrite Hsg.
    apply orb_true_iff in Hl as [Hl|Hl]; apply Ascii.eqb_eq in Hl; subst l;
      destruct ld; reflexivity. }
  rewrite Hlead, Hf, Hx. reflexivity.
Qed.

Lemma print_num_nc neg lead ds frac ex :
  exp_wf ex = true -> forallb no_comma (print_num neg lead ds frac ex) = true.
Proof.
  intros He. apply (forallb_imp num_char); [|apply print_num_chars, He].
  intros c H. apply (num_char_facts c H).
Qed.

Lemma print_num_nt neg lead ds frac ex :
  exp_wf ex = true -> forallb no_tick (print_num neg lead ds frac ex) = true.
Proof.
  intros He. apply (forallb_imp num_char); [|apply print_num_chars, He].
  intros c H. apply (num_char_facts c H).
Qed.

(** *** Shape of printed values *)

Lemma print_head v : exists c t, print v = c :: t /\ head_ok c = true.
Proof.
  destruct v as [| | |neg lead ds frac ex|cs|w|es|w|ms];
    try (destruct neg, lead); eexists _, _; split; reflexivity.
Qed.

Lemma elems_start es :
  jelems_wf es = true ->
  exists w c t, print_elems es = w ++ c :: t /\ ws w = true /\ head_ok c = true.
Proof.
  destruct es as [w1 v w2 tc|w1 v w2 r]; simpl jelems_wf; cbn [print_elems];
    intros H; split_andb;
    destruct (print_head v) as [c [t [Heq Hc]]]; rewrite Heq;
    eexists _, _, _; (split; [reflexivity|split; assumption]).
Qed.

Lemma members_start ms :
  jmembers_wf ms = true ->
  exists w t, print_members ms = w ++ dquote :: t /\ ws w = true.
Proof.
  destruct ms as [w1 k w2 w3 v w4 tc|w1 k w2 w3 v w4 r]; simpl jmembers_wf;
    cbn [print_members]; intros H; split_andb; rewrite print_str_app; eexists _, _; (split; [reflexivity|assumption]).
Qed.

Lemma print_members_last ms : exists Mb, print_members ms = Mb ++ ["}"%char].
Proof.
  induction ms as [w1 k w2 w3 v w4 tc|w1 k w2 w3 v w4 r [Mb IH]]; cbn [print_members].
  - exists (w1 ++ print_str k ++ w2 ++ ":"%char :: w3 ++ print v ++ w4 ++ trailing_comma tc).
    repeat (rewrite <- app_assoc || rewrite <- app_comm_cons). reflexivity.
  - rewrite IH. exists (w1 ++ print_str k ++ w2 ++ ":"%char :: w3 ++ print v ++ w4 ++ ","%char :: Mb).
    repeat (rewrite <- app_assoc || rewrite <- app_comm_cons). reflexivity.
Qed.

Lemma object_frame v : is_object v = true -> exists Mb, print v = "{"%char :: Mb ++ ["}"%char].
Proof.
  destruct v as [| | | | | | |w|ms]; try discriminate; intros _.
  - exists w. reflexivity.
  - destruct (print_members_last ms) as [Mb HMb]. exists Mb. cbn [print]. rewrite HMb.
    reflexivity.
Qed.

Lemma size_pos v : 1 <= size v.
Proof. destruct v; simpl; lia. Qed.

Lemma size_elems_pos es : 1 <= size_elems es.
Proof. destruct es as [w1 v w2 tc|w1 v w2 r]; simpl; pose proof (size_pos v); lia. Qed.

Lemma size_members_pos ms : 1 <= size_members ms.
Proof. destruct ms as [w1 k w2 w3 v w4 tc|w1 k w2 w3 v w4 r]; simpl; pose proof (size_pos v); lia. Qed.

(** *** What follows a value *)

Lemma follow_ws w c r :
  ws w = true -> c = ","%char \/ c = "]"%char \/ c = "}"%char -> follow (w ++ c :: r).
Proof.
  destruct w as [|d w]; intros Hw Hc.
  - simpl. destruct Hc as [H|[H|H]]; auto.
  - simpl in Hw |- *. apply andb_true_iff in Hw as [Hd _]. right; right; right.
    apply (json_ws_facts d Hd).
Qed.

Lemma closeAhead_follow r : closeAhead r = true -> follow (removeTrailingCommas r).
Proof.
  induction r as [|c r IH]; [discriminate|]. cbn [closeAhead]. intros H.
  destruct (is_close c) eqn:Ec.
  - unfold is_close in Ec.
    apply orb_true_iff in Ec as [E|E]; apply Ascii.eqb_eq in E; subst c;
      rewrite rtc_cons by reflexivity; [right; right; left | right; left]; reflexivity.
  - destruct (js_ws c) eqn:Ej; [|discriminate].
    rewrite rtc_cons by apply (js_ws_facts c Ej). right; right; right. exact Ej.
Qed.

Lemma follow_rtc r : follow r -> follow (removeTrailingCommas r).
Proof.
  destruct r as [|c r]; [intros _; exact I|]. intros [->|[->|[->|H]]].
  - destruct (closeAhead r) eqn:E.
    + rewrite rtc_comma_drop by exact E. apply closeAhead_follow, E.
    + rewrite rtc_comma_keep by exact E. left; reflexivity.
  - rewrite rtc_cons by reflexivity. right; left; reflexivity.
  - rewrite rtc_cons by reflexivity. right; right; left; reflexivity.
  - rewrite rtc_cons by apply (js_ws_facts c H). right; right; right; exact H.
Qed.

Lemma pstring_close r : pstring (dquote :: r) = Some r.
Proof. reflexivity. Qed.

Ltac app_right :=
  repeat (rewrite <- app_assoc || rewrite <- app_comm_cons); cbn [app].

Ltac ws_nc := apply ws_no_comma; assumption.

(** *** The recogniser accepts every printed value once its trailing
    commas are removed, whatever comes after it *)

Lemma pvalue_print :
  (forall v, jv_wf v = true -> forall f rest, size v <= f -> follow rest ->
     pvalue f (removeTrailingCommas (print v ++ rest)) = Some (removeTrailingCommas rest)) /\
  (forall es, jelems_wf es = true -> forall f rest, size_elems es <= f ->
     pelems f (removeTrailingCommas (print_elems es ++ rest)) =
       Some (removeTrailingCommas rest)) /\
  (forall ms, jmembers_wf ms = true -> forall f rest, size_members ms <= f ->
     pmembers f (removeTrailingCommas (print_members ms ++ rest)) =
       Some (removeTrailingCommas rest)).
Proof.
  apply jv_all.
  1-3: intros _ [|f] rest Hs _; [simpl in Hs; lia|reflexivity].
  - intros neg lead ds frac ex Hwf [|f] rest Hs Hf; [simpl in Hs; lia|].
    simpl in Hwf. apply andb_true_iff in Hwf as [Hl He]. cbn [print].
    rewrite rtc_app by (apply print_num_nc; exact He).
    rewrite pvalue_num. apply pnumber_print; [destruct lead; exact Hl|exact He|apply follow_rtc, Hf].
  - intros cs Hwf [|f] rest Hs _; [simpl in Hs; lia|].
    simpl in Hwf. cbn [print]. rewrite print_str_app, rtc_cons by reflexivity.
    rewrite pvalue_str, pstring_body by exact Hwf. rewrite rtc_cons by reflexivity.
    reflexivity.
  - intros w Hwf [|f] rest Hs _; [simpl in Hs; lia|].
    simpl in Hwf. cbn [print]. app_right.
    rewrite rtc_cons by reflexivity. rewrite rtc_app by ws_nc.
    rewrite rtc_cons by reflexivity. rewrite pvalue_arr, skipWs_ws by exact Hwf.
    reflexivity.
  - intros es IH Hwf [|f] rest Hs _; [simpl in Hs; lia|].
    simpl in Hwf, Hs. cbn [print app]. rewrite rtc_cons by reflexivity. rewrite pvalue_arr.
    destruct (elems_start es Hwf) as [w [c [t [Heq [Hw Hc]]]]].
    destruct (head_facts c Hc) as [Hcl [_ [Hcw Hcc]]].
    assert (E : skipWs (removeTrailingCommas (print_elems es ++ rest)) =
                c :: removeTrailingCommas (t ++ rest)).
    { rewrite Heq. app_right. rewrite rtc_app by ws_nc. rewrite rtc_cons by exact Hcc.
      rewrite skipWs_ws by exact Hw. apply skipWs_stop, Hcw. }
    rewrite E. cbv beta iota.
    assert (Ec : Ascii.eqb c "]"%char = false)
      by (unfold is_close in Hcl; apply orb_false_iff in Hcl; apply Hcl).
    rewrite Ec, <- E, pelems_skipWs. apply IH; [exact Hwf | lia].
  - intros w Hwf [|f] rest Hs _; [simpl in Hs; lia|].
    simpl in Hwf. cbn [print]. app_right.
    rewrite rtc_cons by reflexivity. rewrite rtc_app by ws_nc.
    rewrite rtc_cons by reflexivity. rewrite pvalue_obj, skipWs_ws by exact Hwf.
    reflexivity.
  - intros ms IH Hwf [|f] rest Hs _; [simpl in Hs; lia|].
    simpl in Hwf, Hs. cbn [print app]. rewrite rtc_cons by reflexivity. rewrite pvalue_obj.
    destruct (members_start ms Hwf) as [w [t [Heq Hw]]].
    assert (E : skipWs (removeTrailingCommas (print_members ms ++ rest)) =
                dquote :: removeTrailingCommas (t ++ rest)).
    { rewrite Heq. app_right. rewrite rtc_app by ws_nc. rewrite rtc_cons by reflexivity.
      rewrite skipWs_ws by exact Hw. apply skipWs_stop. reflexivity. }
    rewrite E. cbv beta iota.
    replace (Ascii.eqb dquote "}"%char) with false by reflexivity.
    rewrite <- E, pmembers_skipWs. apply IH; [exact Hwf | lia].
  - intros w1 v IHv w2 tc Hwf [|f] rest Hs; [simpl in Hs; lia|].
    simpl in Hwf, Hs. split_andb.
    destruct tc as [w|]; cbn [print_elems trailing_comma]; app_right;
      rewrite rtc_app by ws_nc; cbn [pelems]; rewrite pvalue_ws by assumption.
    + rewrite IHv; [| assumption | lia | apply follow_ws; auto].
      cbv beta iota. rewrite rtc_app by ws_nc. rewrite skipWs_ws by assumption.
      rewrite rtc_comma_drop by (rewrite closeAhead_ws by assumption; reflexivity).
      rewrite rtc_app by ws_nc. rewrite skipWs_ws by assumption.
      rewrite rtc_cons by reflexivity. reflexivity.
    + rewrite IHv; [| assumption | lia | apply follow_ws; auto].
      cbv beta iota. rewrite rtc_app by ws_nc. rewrite skipWs_ws by assumption.
      rewrite rtc_cons by reflexivity. reflexivity.
  - intros w1 v IHv w2 r IHr Hwf [|f] rest Hs; [pose proof (size_pos v); simpl in Hs; lia|].
    simpl in Hwf, Hs. split_andb. pose proof (size_pos v). pose proof (size_elems_pos r).
    cbn [print_elems]. app_right.
    rewrite rtc_app by ws_nc. cbn [pelems]. rewrite pvalue_ws by assumption.
    rewrite IHv; [| assumption | lia | apply follow_ws; auto].
    cbv beta iota. rewrite rtc_app by ws_nc. rewrite skipWs_ws by assumption.
    destruct (elems_start r ltac:(assumption)) as [w [c [t [Heq [Hw Hc]]]]].
    rewrite rtc_comma_keep
      by (rewrite Heq; app_right; rewrite closeAhead_ws by exact Hw;
          apply closeAhead_head, Hc).
    rewrite skipWs_stop by reflexivity. cbv beta iota.
    apply IHr; [assumption | lia].
  - intros w1 k w2 w3 v IHv w4 tc Hwf [|f] rest Hs; [simpl in Hs; lia|].
    simpl in Hwf, Hs. split_andb.
    destruct tc as [w|]; cbn [print_members trailing_comma]; app_right;
      rewrite print_str_app; app_right;
      rewrite rtc_app by ws_nc; rewrite pmembers_ws by assumption;
      rewrite rtc_cons by reflexivity; rewrite pmembers_str;
      rewrite pstring_body by assumption; rewrite rtc_cons by reflexivity;
      rewrite pstring_close; cbv beta iota;
      rewrite rtc_app by ws_nc; rewrite skipWs_ws by assumption;
      rewrite rtc_cons by reflexivity; rewrite skipWs_stop by reflexivity; cbv beta iota;
      rewrite rtc_app by ws_nc; rewrite pvalue_ws by assumption.
    + rewrite IHv; [| assumption | lia | apply follow_ws; auto].
      cbv beta iota. rewrite rtc_app by ws_nc. rewrite skipWs_ws by assumption.
      rewrite rtc_comma_drop by (rewrite closeAhead_ws by assumption; reflexivity).
      rewrite rtc_app by ws_nc. rewrite skipWs_ws by assumption.
      rewrite rtc_cons by reflexivity. reflexivity.
    + rewrite IHv; [| assumption | lia | apply follow_ws; auto].
      cbv beta iota. rewrite rtc_app by ws_nc. rewrite skipWs_ws by assumption.
      rewrite rtc_cons by reflexivity. reflexivity.
  - intros w1 k w2 w3 v IHv w4 r IHr Hwf [|f] rest Hs;
      [pose proof (size_pos v); simpl in Hs; lia|].
    simpl in Hwf, Hs. split_andb. pose proof (size_pos v). pose proof (size_members_pos r).
    cbn [print_members]. app_right.
    rewrite print_str_app; app_right.
    rewrite rtc_app by ws_nc. rewrite pmembers_ws by assumption.
    rewrite rtc_cons by reflexivity. rewrite pmembers_str.
    rewrite pstring_body by assumption. rewrite rtc_cons by reflexivity.
    rewrite pstring_close. cbv beta iota.
    rewrite rtc_app by ws_nc. rewrite skipWs_ws by assumption.
    rewrite rtc_cons by reflexivity. rewrite skipWs_stop by reflexivity. cbv beta iota.
    rewrite rtc_app by ws_nc. rewrite pvalue_ws by assumption.
    rewrite IHv; [| assumption | lia | apply follow_ws; auto].
    cbv beta iota. rewrite rtc_app by ws_nc. rewrite skipWs_ws by assumption.
    destruct (members_start r ltac:(assumption)) as [w [t [Heq Hw]]].
    rewrite rtc_comma_keep
      by (rewrite Heq; app_right; rewrite closeAhead_ws by exact Hw;
          apply closeAhead_head; reflexivity).
    rewrite skipWs_stop by reflexivity. cbv beta iota.
    apply IHr; [assumption | lia].
Qed.

(** *** Fuel *)

Lemma size_le_length :
  (forall v, size v <= length (filter no_comma (print v))) /\
  (forall es, size_elems es <= length (filter no_comma (print_elems es))) /\
  (forall ms, size_members ms <= length (filter no_comma (print_members ms))).
Proof.
  apply jv_all; intros;
    cbn [size size_elems size_members print print_elems print_members];
    try (unfold print_num; rewrite filter_app, length_app; destruct lead; simpl; lia);
    try (unfold print_str; simpl; lia);
    repeat first [rewrite filter_app | rewrite length_app | progress simpl];
    try lia.
Qed.

Lemma rtc_length s : length (filter no_comma s) <= length (removeTrailingCommas s).
Proof.
  induction s as [|c s IH]; [reflexivity|]. cbn [filter removeTrailingCommas].
  unfold no_comma at 1. destruct (Ascii.eqb c ","%char); simpl;
    [destruct (closeAhead s); simpl|]; lia.
Qed.

Lemma jsonParses_print v :
  jv_wf v = true -> jsonParses (removeTrailingCommas (print v)) = true.
Proof.
  intros Hwf. unfold jsonParses.
  pose proof (proj1 pvalue_print v Hwf (S (length (removeTrailingCommas (print v)))) [])
    as H.
  rewrite app_nil_r in H. rewrite H; [reflexivity| |exact I].
  pose proof (proj1 size_le_length v). pose proof (rtc_length (print v)). lia.
Qed.

(** *** No backticks in a printed value *)

Lemma forallb_app_true (f : ascii -> bool) a b :
  forallb f a = true -> forallb f b = true -> forallb f (a ++ b) = true.
Proof. intros Ha Hb. rewrite forallb_app, Ha, Hb. reflexivity. Qed.

Lemma forallb_cons_true (f : ascii -> bool) c l :
  f c = true -> forallb f l = true -> forallb f (c :: l) = true.
Proof. intros Hc Hl. simpl. rewrite Hc, Hl. reflexivity. Qed.

Lemma sitem_no_tick i : sitem_wf i = true -> forallb no_tick (print_sitem i) = true.
Proof.
  destruct i as [c|c|h1 h2 h3 h4]; intros H.
  - unfold sitem_wf in H. split_andb. cbn [print_sitem].
    apply forallb_cons_true; [exact H0|reflexivity].
  - simpl in H. cbn [print_sitem]. apply forallb_cons_true; [reflexivity|].
    apply forallb_cons_true; [apply (escape_facts c H)|reflexivity].
  - simpl in H. split_andb. cbn [print_sitem].
    repeat apply forallb_cons_true; try reflexivity; apply hex_facts; assumption.
Qed.

Lemma str_no_tick k : forallb sitem_wf k = true -> forallb no_tick (print_str k) = true.
Proof.
  intros H. unfold print_str. apply forallb_cons_true; [reflexivity|].
  apply forallb_app_true; [|reflexivity]. unfold str_body.
  induction k as [|i k IH]; [reflexivity|]. simpl in H. apply andb_true_iff in H as [H1 H2].
  simpl. apply forallb_app_true; [apply sitem_no_tick, H1|apply IH, H2].
Qed.

Ltac no_tick_solve :=
  first [ reflexivity | assumption
        | apply ws_no_tick; assumption
        | apply str_no_tick; assumption
        | apply print_num_nt; assumption
        | match goal with
          | H : _ -> forallb no_tick ?l = true |- forallb no_tick ?l = true =>
              apply H; assumption
          end
        | apply forallb_app_true; no_tick_solve
        | apply forallb_cons_true; no_tick_solve ].

Lemma print_no_tick :
  (forall v, jv_wf v = true -> forallb no_tick (print v) = true) /\
  (forall es, jelems_wf es = true -> forallb no_tick (print_elems es) = true) /\
  (forall ms, jmembers_wf ms = true -> forallb no_tick (print_members ms) = true).
Proof.
  apply jv_all; intros; simpl jv_wf in *; simpl jelems_wf in *; simpl jmembers_wf in *;
    split_andb; cbn [print print_elems print_members];
    try (match goal with tc : option (list ascii) |- _ => destruct tc end;
         cbn [trailing_comma trailing_wf] in *);
    no_tick_solve.
Qed.

(** *** The cut of [cleanJsonString] around a fenced object *)

Lemma rjf_cons c r :
  no_tick c = true -> removeJsonFence (c :: r) = c :: removeJsonFence r.
Proof.
  unfold no_tick. destruct c as [[] [] [] [] [] [] [] []]; try reflexivity; discriminate.
Qed.

Lemma rf_cons c r :
  no_tick c = true -> removeFence (c :: r) = c :: removeFence r.
Proof.
  unfold no_tick. destruct c as [[] [] [] [] [] [] [] []]; try reflexivity; discriminate.
Qed.

Lemma rjf_app a r :
  forallb no_tick a = true -> removeJsonFence (a ++ r) = a ++ removeJsonFence r.
Proof.
  induction a as [|c a IH]; [reflexivity|]. intros H. simpl in H. cbn [app].
  apply andb_true_iff in H as [H1 H2]. rewrite rjf_cons by exact H1. rewrite IH by exact H2.
  reflexivity.
Qed.

Lemma rf_app a r :
  forallb no_tick a = true -> removeFence (a ++ r) = a ++ removeFence r.
Proof.
  induction a as [|c a IH]; [reflexivity|]. intros H. simpl in H. cbn [app].
  apply andb_true_iff in H as [H1 H2]. rewrite rf_cons by exact H1. rewrite IH by exact H2.
  reflexivity.
Qed.


Lemma prose_no_tick cs : forallb prose_char cs = true -> forallb no_tick cs = true.
Proof.
  induction cs as [|c cs IH]; simpl; [reflexivity|].
  intros H. apply andb_true_iff in H as [H1 H2]. rewrite IH by exact H2.
  unfold prose_char in H1. apply negb_true_iff, orb_false_iff in H1.
  destruct H1 as [_ H1]. unfold no_tick. rewrite H1. reflexivity.
Qed.


Lemma prose_not_ws_brace c :
  prose_char c = true -> Ascii.eqb c "{"%char = false /\ Ascii.eqb c "}"%char = false.
Proof.
  unfold prose_char. intros H. apply negb_true_iff, orb_false_iff in H as [H _].
  apply orb_false_iff in H. exact H.
Qed.

Lemma dropWs_frame X c M :
  js_ws c = false -> forallb prose_char X = true ->
  exists X', dropWs (X ++ c :: M) = X' ++ c :: M /\ forallb prose_char X' = true.
Proof.
  intros Hc. induction X as [|d X IH]; simpl; intros H.
  - exists []. rewrite Hc. split; reflexivity.
  - apply andb_true_iff in H as [H1 H2]. destruct (js_ws d).
    + apply IH, H2.
    + exists (d :: X). simpl. rewrite H1, H2. split; reflexivity.
Qed.

Lemma forallb_rev {A} (f : A -> bool) l : forallb f (rev l) = forallb f l.
Proof.
  induction l as [|a l IH]; simpl; [reflexivity|].
  rewrite forallb_app, IH. simpl. rewrite andb_true_r, andb_comm. reflexivity.
Qed.

Lemma trim_braces X Mb Y :
  forallb prose_char X = true -> forallb prose_char Y = true ->
  exists X' Y',
    trim (X ++ "{"%char :: Mb ++ "}"%char :: Y) = X' ++ "{"%char :: Mb ++ "}"%char :: Y' /\
    forallb prose_char X' = true /\ forallb prose_char Y' = true.
Proof.
  intros HX HY. unfold trim.
  destruct (dropWs_frame X "{"%char (Mb ++ "}"%char :: Y) eq_refl HX) as [X' [-> HX']].
  replace (rev (X' ++ "{"%char :: Mb ++ "}"%char :: Y))
    with (rev Y ++ "}"%char :: (rev Mb ++ "{"%char :: rev X')).
  2:{ rewrite !rev_app_distr. simpl. rewrite !rev_app_distr. simpl.
      repeat (rewrite <- app_assoc || rewrite <- app_comm_cons). reflexivity. }
  destruct (dropWs_frame (rev Y) "}"%char (rev Mb ++ "{"%char :: rev X') eq_refl)
    as [Y1 [-> HY1]]; [rewrite forallb_rev; exact HY|].
  exists X', (rev Y1). split; [|split; [exact HX'| rewrite forallb_rev; exact HY1]].
  rewrite !rev_app_distr. simpl. rewrite !rev_app_distr. simpl. rewrite !rev_involutive.
  repeat (rewrite <- app_assoc || rewrite <- app_comm_cons). reflexivity.
Qed.

Lemma indexOf_prose X Y :
  forallb prose_char X = true -> indexOf "{"%char (X ++ "{"%char :: Y) = Some (length X).
Proof.
  induction X as [|c X IH]; simpl; [reflexivity|]. intros H.
  apply andb_true_iff in H as [H1 H2]. destruct (prose_not_ws_brace c H1) as [-> _].
  rewrite IH by exact H2. reflexivity.
Qed.

Lemma lastIndexOf_app c a b :
  lastIndexOf c (a ++ b) =
  match lastIndexOf c b with Some i => Some (length a + i) | None => lastIndexOf c a end.
Proof.
  induction a as [|d a IH]; simpl.
  - destruct (lastIndexOf c b); reflexivity.
  - rewrite IH. destruct (lastIndexOf c b); reflexivity.
Qed.

Lemma lastIndexOf_prose Y : forallb prose_char Y = true -> lastIndexOf "}"%char Y = None.
Proof.
  induction Y as [|c Y IH]; simpl; [reflexivity|]. intros H.
  apply andb_true_iff in H as [H1 H2]. rewrite IH by exact H2.
  destruct (prose_not_ws_brace c H1) as [_ ->]. reflexivity.
Qed.

Lemma extractBraces_frame X Mb Y :
  forallb prose_char X = true -> forallb prose_char Y = true ->
  extractBraces (X ++ "{"%char :: Mb ++ "}"%char :: Y) = "{"%char :: Mb ++ ["}"%char].
Proof.
  intros HX HY. unfold extractBraces. rewrite indexOf_prose by exact HX.
  replace (X ++ "{"%char :: Mb ++ "}"%char :: Y)
    with ((X ++ "{"%char :: Mb) ++ "}"%char :: Y)
    by (rewrite <- app_assoc; reflexivity).
  rewrite lastIndexOf_app. simpl. rewrite lastIndexOf_prose by exact HY.
  unfold substring. rewrite length_app. simpl.
  rewrite Nat.min_l by lia. rewrite Nat.max_r by lia.
  rewrite <- app_assoc, skipn_app, skipn_all, Nat.sub_diag. simpl.
  match goal with |- firstn ?k _ = _ =>
    replace k with (length ("{"%char :: Mb ++ ["}"%char]))
      by (simpl; rewrite length_app; simpl; lia) end.
  replace ("{"%char :: Mb ++ "}"%char :: Y) with (("{"%char :: Mb ++ ["}"%char]) ++ Y)
    by (simpl; rewrite <- app_assoc; reflexivity).
  rewrite firstn_app, firstn_all, Nat.sub_diag. simpl. rewrite app_nil_r. reflexivity.
Qed.


Lemma rjf_open r : removeJsonFence (list_ascii_of_string "```json" ++ r) = removeJsonFence r.
Proof. reflexivity. Qed.

Lemma rjf_close r :
  removeJsonFence (list_ascii_of_string "```" ++ newline :: r) =
  list_ascii_of_string "```" ++ newline :: removeJsonFence r.
Proof. reflexivity. Qed.

Lemma rf_close r :
  removeFence (list_ascii_of_string "```" ++ newline :: r) = newline :: removeFence r.
Proof. reflexivity. Qed.

Lemma rjf_id a : forallb no_tick a = true -> removeJsonFence a = a.
Proof. intros H. rewrite <- (app_nil_r a) at 1. rewrite rjf_app by exact H. apply app_nil_r. Qed.

Lemma rf_id a : forallb no_tick a = true -> removeFence a = a.
Proof. intros H. rewrite <- (app_nil_r a) at 1. rewrite rf_app by exact H. apply app_nil_r. Qed.


Lemma cleanChars_fenced pre v post :
  is_object v = true -> jv_wf v = true ->
  forallb prose_char pre = true -> forallb prose_char post = true ->
  cleanChars (fenced pre v post) = removeTrailingCommas (print v).
Proof.
  intros Hobj Hwf Hpre Hpost. unfold cleanChars, fenced.
  assert (HL : forallb no_tick (print v) = true) by (apply (proj1 print_no_tick); exact Hwf).
  rewrite rjf_app by (apply prose_no_tick; exact Hpre).
  rewrite rjf_open, rjf_cons by reflexivity.
  rewrite rjf_app by exact HL.
  rewrite rjf_cons by reflexivity. rewrite rjf_close.
  rewrite (rjf_id post) by (apply prose_no_tick; exact Hpost).
  rewrite rf_app by (apply prose_no_tick; exact Hpre).
  rewrite rf_cons by reflexivity. rewrite rf_app by exact HL.
  rewrite rf_cons by reflexivity. rewrite rf_close.
  rewrite (rf_id post) by (apply prose_no_tick; exact Hpost).
  destruct (object_frame v Hobj) as [Mb HMb].
  replace (pre ++ newline :: print v ++ newline :: newline :: post)
    with ((pre ++ [newline]) ++ "{"%char :: Mb ++ "}"%char :: (newline :: newline :: post)).
  2:{ rewrite HMb. repeat (rewrite <- app_assoc || rewrite <- app_comm_cons).
      reflexivity. }
  destruct (trim_braces (pre ++ [newline]) Mb (newline :: newline :: post))
    as [X' [Y' [-> [HX HY]]]].
  - rewrite forallb_app, Hpre. reflexivity.
  - simpl. exact Hpost.
  - rewrite extractBraces_frame by assumption. rewrite HMb. reflexivity.
Qed.


(** Claim C5, as the code has it: the last '}' of the whole text ends the
    cut, not the brace matching the first '{'. A fenced object followed by
    prose that holds braces keeps that prose, and [JSON.parse] fails on the
    cleaned text, while the object alone, its trailing comma removed,
    parses. *)
Lemma clean_last_brace_counterexample :
  cleanJsonString braces_in_prose =
    ("{" ++ q ++ "a" ++ q ++ ": [1]}" ++
     String newline (String newline "Ask me about {anything}"))%string /\
  jsonParses (list_ascii_of_string (cleanJsonString braces_in_prose)) = false /\
  jsonParses (removeTrailingCommas
                (list_ascii_of_string ("{" ++ q ++ "a" ++ q ++ ": [1,]}")%string)) = true.
Proof. vm_compute. split; [reflexivity | split; reflexivity]. Qed.

(** Claim C5 (amended): take a response made of prose without braces or
    backticks, a [```json] fence and a line break, a JSON object, a line
    break, a closing fence, a line break and prose without braces or
    backticks. The object may be any JSON object of the grammar on 8-bit
    characters, with JSON white space between its tokens, every form of
    number, string literals with escapes and any non-control character other
    than the backtick, and a trailing comma, followed by white space, after
    the last element of any array or the last member of any object at any
    depth. [cleanJsonString] returns exactly the object with
    [.replace(/,(\s*[}\]])/g, '$1')] applied to it (which also drops a comma
    written inside a string literal right before white space and a closing
    bracket), and [JSON.parse] accepts that text. When [JSON.parse] throws on
    the cleaned text, [generateHealthReport] rejects with the distinct error
    "Failed to parse AI response", which the orchestrator turns into the
    malformed-response message. *)
Theorem clean_fenced_object_parses (pre post : list ascii) (v : jv)
  (Hobj : is_object v = true) (Hwf : jv_wf v = true)
  (Hpre : forallb prose_char pre = true) (Hpost : forallb prose_char post = true) :
  cleanJsonString (string_of_list_ascii (fenced pre v post)) =
    string_of_list_ascii (removeTrailingCommas (print v)) /\
  jsonParses (list_ascii_of_string
                (cleanJsonString (string_of_list_ascii (fenced pre v post)))) = true /\
  (forall (svc : Orchestrator.Service) (text : string) (chunks : list Sources.Chunk),
     Orchestrator.json_parse svc
       (cleanJsonString (if String.eqb text "" then "{}"%string else text)) =
       Orchestrator.JsonSyntaxError ->
     Orchestrator.generateHealthReport svc (Orchestrator.Resolved (text, chunks)) =
       Orchestrator.Rejected Orchestrator.parseErrorMessage) /\
  Orchestrator.errorMessage Orchestrator.parseErrorMessage = Orchestrator.malformedMessage.
Proof.
  assert (Hc : cleanJsonString (string_of_list_ascii (fenced pre v post)) =
               string_of_list_ascii (removeTrailingCommas (print v))).
  { unfold cleanJsonString. rewrite list_ascii_of_string_of_list_ascii.
    rewrite cleanChars_fenced by assumption. reflexivity. }
  split; [exact Hc|]. split.
  - rewrite Hc, list_ascii_of_string_of_list_ascii. apply jsonParses_print, Hwf.
  - split; [|vm_compute; reflexivity].
    intros svc text chunks H. unfold Orchestrator.generateHealthReport. rewrite H.
    reflexivity.
Qed.

Lemma clean_fenced_object_parses_witness :
  is_object ex_object = true /\ jv_wf ex_object = true /\
  forallb prose_char ex_pre = true /\ forallb prose_char ex_post = true /\
  cleanJsonString (string_of_list_ascii (fenced ex_pre ex_object ex_post)) =
    string_of_list_ascii (removeTrailingCommas (print ex_object)) /\
  jsonParses (list_ascii_of_string
                (cleanJsonString (string_of_list_ascii (fenced ex_pre ex_object ex_post)))) = true.
Proof.
  destruct (clean_fenced_object_parses ex_pre ex_post ex_object eq_refl eq_refl eq_refl eq_refl)
    as [H1 [H2 _]].
  split; [reflexivity|]. split; [reflexivity|]. split; [reflexivity|].
  split; [reflexivity|]. exact (conj H1 H2).
Defined.

End JsonCleanProofs.

Module PlaybackProofs.

Import Orchestrator Playback.

Local Open Scope Q_scope.

Lemma stopCurrent_single s : single s -> stopCurrent s = [].
Proof.
  unfold single, stopCurrent. destruct (playing s) as [|[j e] [|? ?]]; try contradiction.
  - destruct (sourceNodeRef s); reflexivity.
  - intros ->. simpl. rewrite Nat.eqb_refl. reflexivity.
Qed.

Lemma playBuffer_inv b off s :
  player_inv s -> audioContext s = true -> audioBuffer s = Some b ->
  isLoadingAudio s = false -> player_inv (playBuffer b off s).
Proof.
  intros [H1 [H2 [H3 [H4 H5]]]] Hc Hb Hl.
  pose proof (stopCurrent_single s H1) as Hs.
  unfold player_inv, playBuffer, single. simpl. rewrite Hs.
  split; [reflexivity|]. split; [|split; [|split]].
  - intros _. split; [exact Hc|]. split; [exists b; exact Hb|].
    exists (nextSource s), (clock s + (Pcm.buffer_duration b - off) + (1 # 5)).
    split; [reflexivity|]. split; [apply in_or_app; right; left; reflexivity|].
    rewrite (H5 b Hb). ring.
  - intros H. congruence.
  - intros H. discriminate.
  - exact H5.
Qed.


Lemma set_buffer_inv b s :
  player_inv s -> isPlaying s = false -> isLoadingAudio s = false -> player_inv (set_buffer b s).
Proof.
  intros [H1 [H2 [H3 [H4 H5]]]] Hp Hl. unfold player_inv, set_buffer, single; simpl.
  split; [exact H1|]. split; [|split; [|split]].
  - intros H. congruence.
  - intros H. congruence.
  - exact H4.
  - intros b' Hb. inversion Hb. reflexivity.
Qed.

Lemma decodeAndPlay_inv d s :
  player_inv s -> audioContext s = true -> isLoadingAudio s = false -> isPlaying s = false ->
  player_inv (decodeAndPlay d s).
Proof.
  intros Hi Hc Hl Hp. unfold decodeAndPlay. destruct (decodeAudio d) as [b|]; [|exact Hi].
  apply playBuffer_inv; [apply set_buffer_inv; assumption | exact Hc | reflexivity | exact Hl].
Qed.

Lemma set_context_inv s : player_inv s -> player_inv (set_context s).
Proof.
  intros [H1 [H2 [H3 [H4 H5]]]]. unfold player_inv, set_context, single; simpl.
  split; [exact H1|]. split; [|split; [|split]].
  - intros H. destruct (H2 H) as [_ R]. split; [reflexivity|exact R].
  - intros H. destruct (H3 H) as [_ R]. split; [reflexivity|exact R].
  - exact H4.
  - exact H5.
Qed.

Lemma set_loading_true_inv s :
  player_inv s -> audioContext s = true -> isPlaying s = false -> audioBuffer s = None ->
  player_inv (set_loading true s).
Proof.
  intros [H1 [H2 [H3 [H4 H5]]]] Hc Hp Hb. unfold player_inv, set_loading, single; simpl.
  split; [exact H1|]. split; [|split; [|split]].
  - intros H. congruence.
  - intros _. auto.
  - exact H4.
  - exact H5.
Qed.

Lemma set_loading_false_inv s : player_inv s -> player_inv (set_loading false s).
Proof.
  intros [H1 [H2 [H3 [H4 H5]]]]. unfold player_inv, set_loading, single; simpl.
  split; [exact H1|]. split; [|split; [|split]].
  - exact H2.
  - intros H. discriminate.
  - exact H4.
  - exact H5.
Qed.

Lemma pause_inv s :
  player_inv s -> isPlaying s = true -> isLoadingAudio s = false -> player_inv (pause s).
Proof.
  intros [H1 [H2 [H3 [H4 H5]]]] Hp Hl. pose proof (stopCurrent_single s H1) as Hs.
  unfold player_inv, pause, single; simpl. rewrite Hs.
  split; [exact I|]. split; [|split; [|split]].
  - intros H. discriminate.
  - intros H. congruence.
  - intros _. reflexivity.
  - exact H5.
Qed.

Lemma click_inv s : player_inv s -> player_inv (handlePlayAudio s).
Proof.
  intros Hi. unfold handlePlayAudio.
  destruct (isLoadingAudio s) eqn:Hl; [exact Hi|].
  destruct (isPlaying s) eqn:Hp.
  - destruct (sourceNodeRef s); [|exact Hi].
    destruct (audioContext s); [|exact Hi]. apply pause_inv; assumption.
  - pose proof (set_context_inv s Hi) as Hi'.
    cbv zeta. change (audioBuffer (set_context s)) with (audioBuffer s).
    change (preloadedAudioBase64 (set_context s)) with (preloadedAudioBase64 s).
    destruct (audioBuffer s) as [b|] eqn:Hb.
    + apply playBuffer_inv; [exact Hi' | reflexivity | exact Hb | exact Hl].
    + destruct (preloadedAudioBase64 s) as [d|].
      * destruct (String.eqb d ""%string).
        -- apply set_loading_true_inv; [exact Hi' | reflexivity | exact Hp | exact Hb].
        -- apply decodeAndPlay_inv; [exact Hi' | reflexivity | exact Hl | exact Hp].
      * apply set_loading_true_inv; [exact Hi' | reflexivity | exact Hp | exact Hb].
Qed.

Lemma fetchDone_inv o s : player_inv s -> player_inv (fetchDone o s).
Proof.
  intros Hi. unfold fetchDone. destruct (isLoadingAudio s) eqn:Hl; [|exact Hi].
  pose proof Hi as [H1 [H2 [H3 [H4 H5]]]]. destruct (H3 Hl) as [Hc [Hp Hb]].
  pose proof (set_loading_false_inv s Hi) as Hi'.
  destruct o as [d|e]; [|exact Hi'].
  apply decodeAndPlay_inv; [exact Hi' | exact Hc | reflexivity | exact Hp].
Qed.

Lemma preload_inv d s : player_inv s -> player_inv (set_preloaded d s).
Proof.
  intros [H1 [H2 [H3 [H4 H5]]]]. unfold player_inv, set_preloaded, single; simpl. auto 6.
Qed.

Lemma tick_inv s : player_inv s -> player_inv (tick s).
Proof.
  intros Hi. unfold tick. destruct (audioContext s && isPlaying s)%bool eqn:Hb; [|exact Hi].
  apply andb_true_iff in Hb as [Hc Hp].
  destruct Hi as [H1 [H2 [H3 [H4 H5]]]]. unfold player_inv, set_currentTime, single; simpl.
  split; [exact H1|]. split; [exact H2|]. split; [exact H3|]. split; [|exact H5].
  intros H. congruence.
Qed.

Lemma filter_single s (f : nat * Q -> bool) :
  single s -> match filter f (playing s) with
              | [] => True
              | [(j, _)] => sourceNodeRef s = Some j
              | _ => False
              end.
Proof.
  unfold single. destruct (playing s) as [|[j e] [|? ?]]; try contradiction; simpl; auto.
  intros H. destruct (f (j, e)); exact H || exact I.
Qed.

Lemma advance_inv dt s : player_inv s -> player_inv (advance dt s).
Proof.
  intros [H1 [H2 [H3 [H4 H5]]]]. unfold player_inv, advance, single; simpl.
  split; [apply filter_single, H1|].
  destruct (fires dt s) eqn:Hf; simpl.
  - split; [intros H; discriminate|]. split; [|split; [intros _; reflexivity|exact H5]].
    intros H. destruct (H3 H) as [Hc [_ Hb]]. auto.
  - split; [|split; [exact H3 | split; [exact H4 | exact H5]]].
    intros H. destruct (H2 H) as [Hc [Hb [j [due [Hj [Hin Hdue]]]]]].
    split; [exact Hc|]. split; [exact Hb|]. exists j, due. split; [exact Hj|].
    split; [|exact Hdue].
    apply filter_In. split; [exact Hin|]. simpl.
    destruct (Qle_bool due (clock s + dt)) eqn:Hq; [|reflexivity].
    exfalso. unfold fires in Hf. rewrite Hj in Hf.
    assert (Hex : existsb (fun p => Nat.eqb (fst p) j)
                    (filter (fun p => Qle_bool (snd p) (clock s + dt)) (timeouts s)) = true).
    { apply existsb_exists. exists (j, due). split; [apply filter_In; auto|apply Nat.eqb_refl]. }
    congruence.
Qed.

Lemma step_inv e s : player_inv s -> player_inv (step e s).
Proof.
  destruct e; simpl; [apply click_inv | apply fetchDone_inv | apply preload_inv
                     | apply advance_inv | apply tick_inv].
Qed.

Lemma run_inv es s : player_inv s -> player_inv (run es s).
Proof.
  revert s. induction es as [|e es IH]; simpl; [auto|].
  intros s Hi. apply IH, step_inv, Hi.
Qed.

Lemma init_inv : player_inv initPlayer.
Proof.
  unfold player_inv, single; simpl. repeat split; intros; discriminate.
Qed.

Lemma reachable_inv es : player_inv (run es initPlayer).
Proof. apply run_inv, init_inv. Qed.

Lemma single_shape s :
  single s -> (length (playing s) <= 1)%nat /\
              forall p, In p (playing s) -> sourceNodeRef s = Some (fst p) /\ playing s = [p].
Proof.
  unfold single. destruct (playing s) as [|[j x] [|? ?]]; try contradiction; simpl.
  - split; [lia|]. intros p [].
  - intros H. split; [lia|]. intros p [<-|[]]. auto.
Qed.

Lemma playing_not_loading s : player_inv s -> isPlaying s = true -> isLoadingAudio s = false.
Proof.
  intros [_ [_ [H3 _]]] Hp. destruct (isLoadingAudio s) eqn:Hl; [|reflexivity].
  destruct (H3 eq_refl) as [_ [Hp' _]]. congruence.
Qed.

Lemma click_pause s :
  player_inv s -> isPlaying s = true -> handlePlayAudio s = pause s.
Proof.
  intros Hi Hp. pose proof (playing_not_loading s Hi Hp) as Hl.
  destruct Hi as [_ [H2 _]]. destruct (H2 Hp) as [Hc [_ [j [due [Hj _]]]]].
  unfold handlePlayAudio. rewrite Hl, Hp, Hj, Hc. reflexivity.
Qed.

Lemma fetchDone_idle o s : isLoadingAudio s = false -> fetchDone o s = s.
Proof. intros H. unfold fetchDone. rewrite H. reflexivity. Qed.

Lemma tick_idle s : isPlaying s = false -> tick s = s.
Proof. intros H. unfold tick. rewrite H, andb_false_r. reflexivity. Qed.


Lemma playBuffer_twice s b o b' o' :
  player_inv s -> playing (playBuffer b' o' (playBuffer b o s)) =
    [(S (nextSource s), clock s + (Pcm.buffer_duration b' - o'))].
Proof.
  intros [Hs _]. unfold playBuffer, stopCurrent; simpl. rewrite Nat.eqb_refl. simpl.
  unfold single, stopCurrent in *.
  destruct (playing s) as [|[j x] [|? ?]]; [|rewrite Hs; simpl; rewrite Nat.eqb_refl|contradiction];
  destruct (sourceNodeRef s); reflexivity.
Qed.

(** Claim C8, counterexample: two consecutive clicks on the play button,
    with no other event between them, leave no source node playing: the
    second click pauses. *)
Lemma double_click_counterexample :
  length (playing (run [Preload exampleAudio; Click] initPlayer)) = 1%nat /\
  isPlaying (run [Preload exampleAudio; Click; Click] initPlayer) = false /\
  playing (run [Preload exampleAudio; Click; Click] initPlayer) = [].
Proof. vm_compute. auto. Qed.

(** Claim C8 (amended): in every reachable state at most one source node
    plays, and it is the one [sourceNodeRef] holds; an event that starts a
    new source node leaves it as the only one playing; a click while playing
    pauses (no source node left playing, no new one started); and two
    consecutive [playBuffer] calls leave exactly the second source playing. *)
Theorem player_single_source (es : list event) :
  let s := run es initPlayer in
  (length (playing s) <= 1)%nat /\
  (forall p, In p (playing s) -> sourceNodeRef s = Some (fst p)) /\
  (forall e p, In p (playing (step e s)) -> ~ In p (playing s) ->
     playing (step e s) = [p] /\ sourceNodeRef (step e s) = Some (fst p)) /\
  (isPlaying s = true ->
     playing (step Click s) = [] /\ isPlaying (step Click s) = false /\
     starts (step Click s) = starts s) /\
  (forall b o b' o', playing (playBuffer b' o' (playBuffer b o s)) =
     [(S (nextSource s), clock s + (Pcm.buffer_duration b' - o'))]).
Proof.
  intros s. pose proof (reachable_inv es) as Hi. fold s in Hi.
  destruct (single_shape s (proj1 Hi)) as [Hlen Hp].
  split; [exact Hlen|]. split; [intros p Hin; apply (Hp p Hin)|].
  split; [|split; [|intros b o b' o'; apply playBuffer_twice; exact Hi]].
  - intros e p Hin _. pose proof (step_inv e s Hi) as Hi'.
    destruct (single_shape _ (proj1 Hi')) as [_ Hp']. destruct (Hp' p Hin). auto.
  - intros Hpl. simpl. rewrite (click_pause s Hi Hpl). unfold pause; simpl.
    split; [|auto].
    destruct Hi as [Hs _]. unfold single, stopCurrent in *.
    destruct (playing s) as [|[j x] [|? ?]] eqn:E; [destruct (sourceNodeRef s); reflexivity| |contradiction].
    rewrite Hs. simpl. rewrite Nat.eqb_refl. reflexivity.
Qed.







Lemma player_single_source_witness :
  isPlaying (run [Preload exampleAudio; Click] initPlayer) = true /\
  playing (step Click (run [Preload exampleAudio; Click] initPlayer)) = [] /\
  length (playing (run [Preload exampleAudio; Click] initPlayer)) = 1%nat.
Proof.
  assert (Hp : isPlaying (run [Preload exampleAudio; Click] initPlayer) = true)
    by (vm_compute; reflexivity).
  split; [exact Hp|]. split.
  - apply (proj1 (proj1 (proj2 (proj2 (proj2 (player_single_source [Preload exampleAudio; Click])))) Hp)).
  - vm_compute. reflexivity.
Defined.


End PlaybackProofs.

Module SourcesOrderProofs.

Import Sources SourcesProofs.

Lemma firstIndex_app_in u p q :
  In u (map uri p) -> firstIndex u (p ++ q) = firstIndex u p /\ firstIndex u p < length p.
Proof.
  induction p as [|s p IH]; simpl; [tauto|]. intros [E|H].
  - subst. rewrite String.eqb_refl. split; [reflexivity|lia].
  - destruct (String.eqb (uri s) u); [split; [reflexivity|lia]|].
    destruct (IH H) as [A B]. rewrite A. split; [reflexivity|lia].
Qed.

Lemma firstIndex_app_notin u p q :
  ~ In u (map uri p) -> firstIndex u (p ++ q) = length p + firstIndex u q.
Proof.
  induction p as [|s p IH]; simpl; [reflexivity|]. intros H.
  destruct (String.eqb_spec (uri s) u); [tauto|]. rewrite IH; [reflexivity|tauto].
Qed.

Lemma StronglySorted_snoc {A} (R : A -> A -> Prop) l x :
  StronglySorted R l -> (forall y, In y l -> R y x) -> StronglySorted R (l ++ [x]).
Proof.
  induction l as [|a l IH]; intros H Hx; simpl.
  - repeat constructor.
  - inversion H; subst. constructor.
    + apply IH; [assumption|]. intros y Hy. apply Hx. right. assumption.
    + apply Forall_app. split; [assumption|]. constructor; [apply Hx; left; reflexivity|constructor].
Qed.

Lemma StronglySorted_impl {A} (R R' : A -> A -> Prop) l :
  (forall a b, In a l -> In b l -> R a b -> R' a b) ->
  StronglySorted R l -> StronglySorted R' l.
Proof.
  induction l as [|a l IH]; intros Himp H; [constructor|].
  inversion H; subst. constructor.
  - apply IH; [|assumption]. intros x y Hx Hy. apply Himp; right; assumption.
  - apply Forall_forall. intros y Hy. apply Himp; [left; reflexivity|right; assumption|].
    rewrite Forall_forall in *. auto.
Qed.

Lemma order_fold l m p :
  dedup_inv m p -> order_inv m p ->
  order_inv (fold_left (fun m s => map_set (uri s) s m) l m) (p ++ l).
Proof.
  revert m p. induction l as [|s l IH]; intros m p Hd Ho.
  - rewrite app_nil_r. assumption.
  - simpl. replace (p ++ s :: l) with ((p ++ [s]) ++ l) by (rewrite <- app_assoc; reflexivity).
    apply IH; [apply dedup_inv_step; assumption|].
    destruct Hd as [Hnd [Hkeys Hval]].
    unfold order_inv. rewrite keys_map_set.
    assert (Hsame : forall u, In u (map fst m) -> firstIndex u (p ++ [s]) = firstIndex u p).
    { intros u Hu. apply Hkeys in Hu. apply (firstIndex_app_in u p [s] Hu). }
    assert (Ho' : StronglySorted (fun u v => firstIndex u (p ++ [s]) < firstIndex v (p ++ [s])) (map fst m)).
    { refine (StronglySorted_impl _ _ _ _ Ho). intros a b Ha Hb H. rewrite (Hsame a Ha), (Hsame b Hb). exact H. }
    destruct (map_has (uri s) m) eqn:Hh.
    + exact Ho'.
    + apply StronglySorted_snoc.
      * exact Ho'.
      * intros y Hy. rewrite (Hsame y Hy).
        assert (Hn : ~ In (uri s) (map uri p))
          by (rewrite <- Hkeys, <- map_has_spec; congruence).
        rewrite (firstIndex_app_notin (uri s) p [s] Hn). simpl. rewrite String.eqb_refl.
        apply Hkeys in Hy. destruct (firstIndex_app_in y p [] Hy). lia.
Qed.

Lemma lastWith_in u l v : lastWith u l = Some v -> In v l.
Proof.
  unfold lastWith. assert (H : forall acc, fold_left (fun acc s => if String.eqb (uri s) u then Some s else acc) l acc = Some v -> acc = Some v \/ In v l).
  { induction l as [|a l IH]; intros acc H; simpl in H; [auto|].
    destruct (IH _ H) as [E|E]; [|right; right; exact E].
    destruct (String.eqb (uri a) u); [inversion E; subst; right; left; reflexivity|left; exact E]. }
  intros H'. destruct (H None H') as [E|E]; [discriminate|exact E].
Qed.

Lemma toSource_title c : title (toSource c) <> ""%string.
Proof.
  unfold toSource, or_default; simpl.
  destruct (match web c with Some w => web_title w | None => None end) as [t|]; [|discriminate].
  destruct (String.eqb_spec t ""); [discriminate|assumption].
Qed.

(** Extra (sources order and titles): [Array.from(uniqueSourcesMap.values())]
    lists one source per URI in the order in which each URI first appears
    among the citations (a later duplicate replaces the value but keeps the
    key's position), and every listed source has a non-empty title, since a
    missing or empty title becomes ["Source"]; the listed URIs are pairwise
    distinct, and they are exactly the non-empty URIs of the citations:
    each chunk whose URI is non-empty has its URI listed. *)
Theorem dedupSources_first_seen_order (chunks : list Chunk) :
  StronglySorted (fun u v => firstIndex u (sources chunks) < firstIndex v (sources chunks))
    (map uri (dedupSources chunks)) /\
  (forall s, In s (dedupSources chunks) -> title s <> ""%string) /\
  NoDup (map uri (dedupSources chunks)) /\
  (forall c, In c chunks -> uri (toSource c) <> ""%string ->
     In (uri (toSource c)) (map uri (dedupSources chunks))) /\
  (forall u, In u (map uri (dedupSources chunks)) ->
     exists c, In c chunks /\ uri (toSource c) = u /\ u <> ""%string).
Proof.
  assert (Hd : dedup_inv (fold_left (fun m s => map_set (uri s) s m) (sources chunks) []) ([] ++ sources chunks))
    by (apply dedup_inv_fold; apply dedup_inv_nil).
  assert (Ho : order_inv (fold_left (fun m s => map_set (uri s) s m) (sources chunks) []) ([] ++ sources chunks))
    by (apply order_fold; [apply dedup_inv_nil|constructor]).
  unfold dedupSources. simpl app in Hd, Ho.
  destruct Hd as [Hnd [Hkeys Hval]].
  rewrite map_uri_snd by (intros k v Hin; apply (Hval k v Hin)).
  split; [exact Ho|]. split; [|split; [exact Hnd|split]].
  2:{ intros c Hc Hu. apply Hkeys. apply in_map. unfold sources. apply filter_In.
      split; [apply in_map, Hc|]. destruct (String.eqb_spec (uri (toSource c)) ""%string);
      [contradiction|reflexivity]. }
  2:{ intros u Hu. apply Hkeys in Hu. apply in_map_iff in Hu as [s0 [<- Hs0]].
      unfold sources in Hs0. apply filter_In in Hs0 as [Hs0 He].
      apply in_map_iff in Hs0 as [c [<- Hc]]. exists c. split; [exact Hc|]. split; [reflexivity|].
      destruct (String.eqb_spec (uri (toSource c)) ""%string); [discriminate|assumption]. }
  intros s Hs. apply in_map_iff in Hs as [[k v] [Heq Hin]]. simpl in Heq. subst v.
  destruct (Hval k s Hin) as [_ Hl]. apply lastWith_in in Hl.
  unfold sources in Hl. apply filter_In in Hl as [Hl _]. apply in_map_iff in Hl as [c [<- _]].
  apply toSource_title.
Qed.

(** A citation list with a repeated URI. *)
Lemma dedupSources_first_seen_order_witness :
  let cs := [mkChunk (Some (mkWeb (Some "WHO"%string) (Some "https://who.int"%string)));
             mkChunk (Some (mkWeb None (Some "https://cdc.gov"%string)));
             mkChunk (Some (mkWeb (Some ""%string) (Some "https://who.int"%string)))] in
  map uri (dedupSources cs) = ["https://who.int"%string; "https://cdc.gov"%string] /\
  StronglySorted (fun u v => firstIndex u (sources cs) < firstIndex v (sources cs))
    (map uri (dedupSources cs)) /\
  title (hd (mkSource ""%string ""%string) (dedupSources cs)) <> ""%string.
Proof.
  intros cs. split; [vm_compute; reflexivity|]. split.
  - exact (proj1 (dedupSources_first_seen_order cs)).
  - apply (proj1 (proj2 (dedupSources_first_seen_order cs))). vm_compute. left. reflexivity.
Defined.

End SourcesOrderProofs.

Module NarrationTextProofs.

Import Narration NarrationProofs.

Lemma no_md_stripMd s : no_md (stripMd s) = true.
Proof. induction s as [|c s IH]; simpl; [reflexivity|]. destruct (is_md c) eqn:E; simpl; rewrite ?E, ?IH; reflexivity. Qed.

Lemma no_md_substring n s : no_md s = true -> no_md (substring 0 n s) = true.
Proof.
  revert s; induction n as [|n IH]; intros s H; [destruct s; reflexivity|].
  destruct s as [|c s]; [reflexivity|]. simpl in *. apply andb_true_iff in H as [H1 H2].
  rewrite H1, IH; auto.
Qed.

Lemma no_md_app a b : no_md (a ++ b) = no_md a && no_md b.
Proof. induction a as [|c a IH]; simpl; [reflexivity|]. rewrite IH, andb_assoc. reflexivity. Qed.

Lemma safeText_fixed t :
  no_md t = true ->
  (String.length t <= 600 \/ exists p, t = (p ++ ".")%string /\ String.length p = 600) ->
  safeText t = t.
Proof.
  intros Hno Hl. unfold safeText. rewrite (stripMd_no_md t Hno).
  destruct Hl as [Hl|[p [-> Hp]]].
  - destruct (Nat.ltb_spec 600 (String.length t)); [lia|reflexivity].
  - rewrite length_append. simpl.
    destruct (Nat.ltb_spec 600 (String.length p + 1)); [|lia].
    rewrite <- Hp, substring_0_app. reflexivity.
Qed.

(** Extra (narration text): the text sent to text-to-speech never contains
    '*', '#' or '_', is at most 601 characters long, and preparing it a
    second time leaves it unchanged. *)
Theorem safeText_clean_bounded_stable (text : string) :
  no_md (safeText text) = true /\
  String.length (safeText text) <= 601 /\
  safeText (safeText text) = safeText text.
Proof.
  pose proof (no_md_stripMd text) as Hn.
  assert (H : no_md (safeText text) = true /\
              (String.length (safeText text) <= 600 \/
               exists p, safeText text = (p ++ ".")%string /\ String.length p = 600)).
  { unfold safeText. destruct (Nat.ltb_spec 600 (String.length (stripMd text))) as [Hlt|Hge].
    - split; [rewrite no_md_app, no_md_substring; auto|].
      right. eexists; split; [reflexivity|]. apply substring_0_length. lia.
    - split; [exact Hn|left; exact Hge]. }
  destruct H as [Hno Hl]. split; [exact Hno|split].
  - destruct Hl as [Hl|[p [E Hp]]]; [lia|]. rewrite E, length_append, Hp. simpl. lia.
  - apply safeText_fixed; assumption.
Qed.

End NarrationTextProofs.

Module JsonCleanShapeProofs.

Import JsonClean JsonCleanProofs.

Lemma indexOf_spec c l i :
  indexOf c l = Some i ->
  i < length l /\ nth i l c = c /\ (forall k, k < i -> nth k l c <> c).
Proof.
  revert i. induction l as [|d l IH]; intros i H; simpl in H; [discriminate|].
  destruct (Ascii.eqb_spec d c) as [->|Hne].
  - inversion H; subst. simpl. split; [lia|split; [reflexivity|intros; lia]].
  - destruct (indexOf c l) as [i'|] eqn:E; simpl in H; [|discriminate]. inversion H; subst.
    destruct (IH i' eq_refl) as [A [B C]]. simpl. split; [lia|split; [exact B|]].
    intros [|k] Hk; [exact Hne|apply C; lia].
Qed.

Lemma lastIndexOf_none c l : lastIndexOf c l = None -> forall k, k < length l -> nth k l c <> c.
Proof.
  induction l as [|e l IH]; intros H k Hk; simpl in *; [lia|].
  destruct (lastIndexOf c l); [discriminate|].
  destruct (Ascii.eqb_spec e c); [discriminate|].
  destruct k; [assumption|apply IH; [reflexivity|lia]].
Qed.

Lemma lastIndexOf_spec c l j :
  lastIndexOf c l = Some j ->
  j < length l /\ nth j l c = c /\ (forall k, j < k < length l -> nth k l c <> c).
Proof.
  revert j. induction l as [|d l IH]; intros j H; simpl in H; [discriminate|].
  destruct (lastIndexOf c l) as [j'|] eqn:E.
  - inversion H; subst. destruct (IH j' eq_refl) as [A [B C]]. simpl.
    split; [lia|split; [exact B|]]. intros [|k] Hk; [lia|apply C; simpl in Hk; lia].
  - destruct (Ascii.eqb_spec d c) as [->|Hne]; [|discriminate]. inversion H; subst.
    simpl. split; [lia|split; [reflexivity|]]. intros [|k] Hk; [lia|].
    apply (lastIndexOf_none c l E). simpl in Hk. lia.
Qed.

Lemma rtc_incl l x : In x (removeTrailingCommas l) -> In x l.
Proof.
  induction l as [|c l IH]; simpl; [tauto|].
  destruct (Ascii.eqb c ","%char && closeAhead l)%bool; simpl; intuition.
Qed.

Lemma rtc_snoc m c :
  Ascii.eqb c ","%char = false -> exists m', removeTrailingCommas (m ++ [c]) = m' ++ [c].
Proof.
  intros Hc. induction m as [|x m [m' IH]]; simpl.
  - rewrite Hc. exists []. reflexivity.
  - rewrite IH. destruct (Ascii.eqb x ","%char && closeAhead (m ++ [c]))%bool.
    + exists m'. reflexivity.
    + exists (x :: m'). reflexivity.
Qed.

Lemma window_frame (l : list ascii) i j d :
  i < j < length l ->
  exists m, firstn (S j - i) (skipn i l) = nth i l d :: m ++ [nth j l d].
Proof.
  revert i j. induction l as [|a l IH]; intros i j H; simpl in H; [lia|].
  destruct i as [|i].
  - destruct j as [|j]; [lia|]. simpl.
    assert (Hw : forall k, k < length l -> exists m, firstn (S k) l = m ++ [nth k l d]).
    { clear IH H. induction l as [|b l IHl]; intros k Hk; simpl in Hk; [lia|].
      destruct k as [|k]; [exists []; reflexivity|].
      destruct (IHl k ltac:(lia)) as [m Hm]. exists (b :: m).
      change (firstn (S (S k)) (b :: l)) with (b :: firstn (S k) l). rewrite Hm. reflexivity. }
    destruct (Hw j ltac:(lia)) as [m Hm]. exists m. change (a :: firstn (S j) l = a :: m ++ [nth j l d]). rewrite Hm. reflexivity.
  - destruct j as [|j]; [lia|]. simpl. apply IH. lia.
Qed.

Lemma window_in (l : list ascii) p n x :
  In x (firstn n (skipn p l)) -> exists k, p <= k < p + n /\ k < length l /\ nth k l x = x.
Proof.
  intros H. apply In_nth with (d := x) in H as [k [Hk Hx]].
  rewrite length_firstn, length_skipn in Hk.
  rewrite nth_firstn in Hx. destruct (Nat.ltb_spec k n); [|lia].
  rewrite nth_skipn in Hx. exists (p + k). split; [lia|split; [lia|exact Hx]].
Qed.

(** Extra (brace extraction): after the fences are removed and the text is
    trimmed, if a '{' comes before the last '}', the cleaned string starts
    with '{' and ends with '}'; if every '}' comes before the first '{'
    ([substring] swaps its arguments), the cleaned string contains no brace
    at all; if either brace is missing, only the trailing-comma removal
    applies. *)
Theorem cleanChars_braces (s : list ascii) :
  (forall i j, indexOf "{"%char (trimmed s) = Some i -> lastIndexOf "}"%char (trimmed s) = Some j ->
     i < j -> exists m, cleanChars s = "{"%char :: m ++ ["}"%char]) /\
  (forall i j, indexOf "{"%char (trimmed s) = Some i -> lastIndexOf "}"%char (trimmed s) = Some j ->
     j < i -> ~ In "{"%char (cleanChars s) /\ ~ In "}"%char (cleanChars s)) /\
  ((indexOf "{"%char (trimmed s) = None \/ lastIndexOf "}"%char (trimmed s) = None) ->
     cleanChars s = removeTrailingCommas (trimmed s)).
Proof.
  unfold cleanChars, extractBraces. fold (trimmed s). set (t := trimmed s). split; [|split].
  - intros i j Hi Hj Hij. rewrite Hi, Hj.
    destruct (indexOf_spec _ _ _ Hi) as [Hi1 [Hi2 _]].
    destruct (lastIndexOf_spec _ _ _ Hj) as [Hj1 [Hj2 _]].
    unfold substring. rewrite Nat.min_l, Nat.max_r by lia.
    replace (j + 1 - i) with (S j - i) by lia.
    destruct (window_frame t i j "{"%char ltac:(lia)) as [m Hm]. rewrite Hm, Hi2.
    rewrite (nth_indep t "{"%char "}"%char Hj1), Hj2.
    simpl. destruct (rtc_snoc m "}"%char eq_refl) as [m' Hm']. rewrite Hm'.
    exists m'. reflexivity.
  - intros i j Hi Hj Hji. rewrite Hi, Hj.
    destruct (indexOf_spec _ _ _ Hi) as [_ [_ Hi3]].
    destruct (lastIndexOf_spec _ _ _ Hj) as [_ [_ Hj3]].
    unfold substring. rewrite Nat.min_r, Nat.max_l by lia.
    split; intros H; apply rtc_incl, window_in in H as [k [Hk1 [Hk2 Hk3]]].
    + apply (Hi3 k); [lia|exact Hk3].
    + apply (Hj3 k); [lia|]. exact Hk3.
  - intros [H|H]; rewrite H; [reflexivity|destruct (indexOf "{"%char t); reflexivity].
Qed.

Lemma rtc_commas n c r :
  is_close c = true ->
  removeTrailingCommas (repeat ","%char (S n) ++ c :: r) =
  repeat ","%char n ++ c :: removeTrailingCommas r.
Proof.
  intros Hc. induction n as [|n IH].
  - simpl. rewrite Hc. simpl. unfold is_close in Hc.
    destruct (Ascii.eqb_spec c ","%char) as [->|Hne]; [discriminate|]. reflexivity.
  - change (repeat ","%char (S (S n)) ++ c :: r) with (","%char :: (repeat ","%char (S n) ++ c :: r)).
    change (removeTrailingCommas (","%char :: (repeat ","%char (S n) ++ c :: r)))
      with (if (Ascii.eqb ","%char ","%char && closeAhead (repeat ","%char (S n) ++ c :: r))%bool
            then removeTrailingCommas (repeat ","%char (S n) ++ c :: r)
            else ","%char :: removeTrailingCommas (repeat ","%char (S n) ++ c :: r)).
    rewrite IH. reflexivity.
Qed.

(** Extra (trailing commas): the trailing-comma replacement deletes commas
    only, keeping every other character in order; of a run of commas before
    a closing brace or bracket it deletes only the last one, so [",,}"]
    becomes [",}"]. *)
Theorem removeTrailingCommas_only_commas (s : list ascii) :
  filter no_comma (removeTrailingCommas s) = filter no_comma s /\
  (forall n c r, is_close c = true ->
     removeTrailingCommas (repeat ","%char (S n) ++ c :: r) =
     repeat ","%char n ++ c :: removeTrailingCommas r).
Proof.
  split; [|intros; apply rtc_commas; assumption].
  induction s as [|c s IH]; simpl; [reflexivity|].
  destruct (Ascii.eqb_spec c ","%char) as [->|Hne]; simpl.
  - destruct (closeAhead s); simpl; exact IH.
  - assert (Hn : no_comma c = true)
      by (unfold no_comma; destruct (Ascii.eqb_spec c ","%char); [contradiction|reflexivity]).
    rewrite Hn, IH. reflexivity.
Qed.

(** A response with prose around an object, and one with the braces inverted. *)
Lemma cleanChars_braces_witness :
  (exists m, cleanChars (list_ascii_of_string "Result: {a: [1,]} ok") = "{"%char :: m ++ ["}"%char]) /\
  ~ In "{"%char (cleanChars (list_ascii_of_string "} then {")).
Proof.
  split.
  - apply (proj1 (cleanChars_braces _) 8 16); [vm_compute; reflexivity|vm_compute; reflexivity|lia].
  - apply (proj1 (proj1 (proj2 (cleanChars_braces (list_ascii_of_string "} then {"))) 7 0
      ltac:(vm_compute; reflexivity) ltac:(vm_compute; reflexivity) ltac:(lia))).
Defined.

Lemma removeTrailingCommas_only_commas_witness :
  removeTrailingCommas (list_ascii_of_string ",,}") = list_ascii_of_string ",}".
Proof.
  exact (proj2 (removeTrailingCommas_only_commas []) 1 "}"%char [] ltac:(reflexivity)).
Defined.

End JsonCleanShapeProofs.

Module AppFlowProofs.

Import Sources Orchestrator OrchestratorProofs.

Lemma fastSummary_nonempty svc fs : snd (summaryPromise svc) = Resolved fs -> fs <> ""%string.
Proof.
  unfold summaryPromise, generateFastSummary; simpl.
  destruct (snd (fast_resp svc)) as [t|e]; intros H; inversion H; subst; [|discriminate].
  destruct (String.eqb_spec t ""); [discriminate|assumption].
Qed.

Lemma errorMessage_nonempty m : errorMessage m <> ""%string.
Proof.
  destruct (errorMessage_classified m) as [H|[d H]]; rewrite ?H; [|discriminate].
  simpl in H. intros E. rewrite E in H.
  repeat (destruct H as [H|H]; [discriminate H|]). contradiction.
Qed.

(** Extra (screen after a submission): at every time after
    [handleFormSubmit(data)] the stored profile is [data] and the app is in
    one of three screens: LOADING with no error and no audio, the report
    left as it was; REPORT with no error and a report whose summary is
    non-empty, so the dashboard branch of the page always renders; or ERROR
    with a non-empty message, no audio and the report left as it was. *)
Theorem submit_screen (data : UserProfile) (svc : Service) (s0 : App) (t : nat) :
  let s := handleFormSubmit data svc s0 t in
  userProfile s = data /\
  ((appState s = LOADING /\ error s = None /\ reportAudio s = None /\ report s = report s0) \/
   (appState s = REPORT /\ error s = None /\
      exists r, report s = Some r /\ summary r <> ""%string) \/
   (appState s = ERROR /\ report s = report s0 /\ reportAudio s = None /\
      exists m, error s = Some m /\ m <> ""%string)).
Proof.
  intros s. destruct (join_shape svc) as [fs [Hfs Hj]].
  destruct (snd (reportPromise svc)) as [rep|e] eqn:Hr.
  - destruct (Nat.ltb_spec t (Nat.max (fst (fast_resp svc)) (fst (report_resp svc)))) as [Hlt|Hge].
    + subst s. rewrite handleFormSubmit_before_join by (rewrite Hj; exact Hlt).
      split; [reflexivity|]. left. repeat split.
    + destruct (handleFormSubmit_after_join data svc s0 t _ fs rep Hj Hge)
        as [A [B [C [D _]]]]. fold s in A, B, C, D.
      split; [exact C|]. right; left. split; [exact A|]. split; [exact B|].
      pose proof (fastSummary_nonempty svc fs Hfs) as Hne.
      destruct D as [D|[img [tv [_ [_ D]]]]]; eexists; split; try exact D; exact Hne.
  - destruct (Nat.ltb_spec t (fst (report_resp svc))) as [Hlt|Hge].
    + subst s. rewrite handleFormSubmit_before_join by (rewrite Hj; exact Hlt).
      split; [reflexivity|]. left. repeat split.
    + subst s. unfold handleFormSubmit. rewrite Hj.
      destruct (Nat.ltb_spec t (fst (report_resp svc))); [lia|].
      split; [reflexivity|]. right; right. repeat split.
      eexists. split; [reflexivity|]. apply errorMessage_nonempty.
Qed.

Lemma handleFormSubmit_profile data svc s0 t : userProfile (handleFormSubmit data svc s0 t) = data.
Proof.
  unfold handleFormSubmit.
  destruct (promise_all2 _ _) as [tj [[fs r]|m]]; [|destruct (t <? tj); reflexivity].
  destruct (t <? tj); [reflexivity|].
  destruct (visualPromise svc) as [tv [[img|]|e]]; [destruct (_ && _)%bool| |];
  destruct (audioPromise svc) as [ta [a|e']]; try destruct (_ && _)%bool; reflexivity.
Qed.

(** Extra (retry and edit): after a submission of [data], Retry submits the
    same profile object again when its age is non-empty and otherwise only
    shows the form; neither Retry nor Edit changes the stored profile, and
    Edit shows the form, filled with [data], keeping the report. *)
Theorem retry_resubmits_profile (data : UserProfile) (svc svc' : Service) (s0 : App) (t t' : nat) :
  let s := handleFormSubmit data svc s0 t in
  (age data <> ""%string -> handleRetry svc' s t' = handleFormSubmit data svc' s t') /\
  (age data = ""%string -> handleRetry svc' s t' = with_state FORM s) /\
  userProfile (handleRetry svc' s t') = data /\
  userProfile (handleEditProfile s) = data /\ appState (handleEditProfile s) = FORM /\
  report (handleEditProfile s) = report s.
Proof.
  intros s. assert (Hp : userProfile s = data) by apply handleFormSubmit_profile.
  unfold handleRetry. rewrite Hp. split; [|split; [|split; [|split; [|split]]]].
  - intros H. destruct (String.eqb_spec (age data) ""); [contradiction|reflexivity].
  - intros H. rewrite H. reflexivity.
  - destruct (String.eqb_spec (age data) ""); simpl; [exact Hp|].
    apply handleFormSubmit_profile.
  - exact Hp.
  - reflexivity.
  - reflexivity.
Qed.

(** A retry after the rate-limited submission of the example profile. *)
Lemma retry_resubmits_profile_witness :
  handleRetry optionalFailService (handleFormSubmit exampleProfile rateLimitedService exampleApp 20) 20 =
  handleFormSubmit exampleProfile optionalFailService
    (handleFormSubmit exampleProfile rateLimitedService exampleApp 20) 20.
Proof.
  apply (proj1 (retry_resubmits_profile exampleProfile rateLimitedService optionalFailService
                  exampleApp 20 20)).
  cbv. discriminate.
Defined.

End AppFlowProofs.

Module PlayerBoundsProofs.

Import Orchestrator Playback PlaybackProofs.

Local Open Scope Q_scope.

Lemma buffer_duration_pos b : (0 < Pcm.buffer_length b)%nat -> 0 < Pcm.buffer_duration b.
Proof.
  intros H. unfold Pcm.buffer_duration, Qlt. simpl. lia.
Qed.

Lemma buffer_duration_nonneg b : 0 <= Pcm.buffer_duration b.
Proof. unfold Pcm.buffer_duration, Qle. simpl. lia. Qed.

Lemma decodeAudio_nonempty d b : decodeAudio d = Some b -> (0 < Pcm.buffer_length b)%nat.
Proof.
  unfold decodeAudio, Pcm.decodePCM, Pcm.pcmFromCodes. destruct (Pcm.atob d); [|discriminate].
  cbv zeta. match goal with |- context [Nat.eqb ?n 0] => destruct (Nat.eqb_spec n 0) end;
    intros H; inversion H; subst; unfold Pcm.buffer_length; simpl; rewrite length_map; lia.
Qed.

Lemma init_bounds : player_bounds initPlayer.
Proof.
  unfold player_bounds; simpl. repeat split; try discriminate; try lra; try (intros; contradiction);
    try (intros ? H; discriminate).
Qed.

Lemma playBuffer_bounds b off s :
  player_bounds s -> audioBuffer s = Some b -> 0 <= off -> off < duration s ->
  player_bounds (playBuffer b off s).
Proof.
  intros [Hd [Hlen [Hnone [Hp [Hc [Hpl Hst]]]]]] Hb Ho Hlt.
  unfold player_bounds, playBuffer; simpl.
  split; [exact Hd|]. split; [exact Hlen|]. split; [rewrite Hb; discriminate|].
  split; [exact Hp|]. split; [exact Hc|].
  split; [intros _; lra|].
  intros o Hin. apply in_app_or in Hin as [Hin|[<-|[]]]; [apply Hst, Hin|lra].
Qed.

Lemma set_buffer_play_bounds b s :
  player_bounds s -> audioBuffer s = None -> (0 < Pcm.buffer_length b)%nat ->
  player_bounds (playBuffer b 0 (set_buffer b s)).
Proof.
  intros Hs Hb Hl. pose proof (buffer_duration_pos b Hl) as Hpos.
  destruct Hs as [Hd [Hlen [Hnone [Hp [Hc [Hpl Hst]]]]]].
  destruct (Hnone Hb) as [Hc0 [Hp0 [Hj0 [Hs0 Hpl0]]]].
  apply playBuffer_bounds; unfold player_bounds, set_buffer; simpl; [|reflexivity|lra|lra].
  split; [lra|]. split; [intros b' Hb'; inversion Hb'; subst; exact Hl|].
  split; [discriminate|]. split; [lra|]. split; [lra|].
  split; [intros Hpl'; simpl in Hpl'; congruence|].
  rewrite Hs0. intros o [].
Qed.

Lemma decodeAndPlay_bounds d s :
  player_bounds s -> audioBuffer s = None -> player_bounds (decodeAndPlay d s).
Proof.
  intros Hs Hb. unfold decodeAndPlay. destruct (decodeAudio d) as [b|] eqn:E; [|exact Hs].
  apply set_buffer_play_bounds; [exact Hs|exact Hb|]. apply (decodeAudio_nonempty d b E).
Qed.

Lemma set_context_bounds s : player_bounds s -> player_bounds (set_context s).
Proof. intros H. exact H. Qed.

Lemma set_loading_bounds b s : player_bounds s -> player_bounds (set_loading b s).
Proof. intros H. exact H. Qed.

Lemma click_bounds s : player_inv s -> player_bounds s -> player_bounds (handlePlayAudio s).
Proof.
  intros Hi Hs. unfold handlePlayAudio.
  destruct (isLoadingAudio s) eqn:Hl; [exact Hs|].
  destruct (isPlaying s) eqn:Hpl.
  - destruct (sourceNodeRef s); [|exact Hs]. destruct (audioContext s); [|exact Hs].
    destruct Hs as [Hd [Hlen [Hnone [Hp [Hc [Hpe Hst]]]]]].
    pose proof (Hpe Hpl) as E1.
    unfold player_bounds, pause; simpl.
    split; [exact Hd|]. split; [exact Hlen|].
    split; [intros Hb; destruct Hi as [_ [H2 _]]; destruct (H2 Hpl) as [_ [[b Hb'] _]]; congruence|].
    split; [lra|]. split; [lra|]. split; [discriminate|exact Hst].
  - cbv zeta. change (audioBuffer (set_context s)) with (audioBuffer s).
    destruct (audioBuffer s) as [b|] eqn:Hb.
    + destruct Hi as [_ [_ [_ [H4 H5]]]]. pose proof (H4 Hpl) as Hcp. pose proof (H5 b Hb) as Hdur.
      pose proof Hs as [Hd [Hlen [Hnone [Hp [Hc [Hpe Hst]]]]]].
      pose proof (buffer_duration_pos b (Hlen b Hb)) as Hpos.
      change (duration (set_context s)) with (duration s).
      change (currentTime (set_context s)) with (currentTime s).
      change (pausedTimeRef (set_context s)) with (pausedTimeRef s).
      destruct (Qle_bool (duration s) (currentTime s)) eqn:Hq;
        (apply playBuffer_bounds; [exact Hs|exact Hb| |]); cbn [duration pausedTimeRef set_context];
        rewrite ?Hdur in *; try lra.
      assert (Hn : ~ Pcm.buffer_duration b <= currentTime s)
        by (intros Hq'; apply Qle_bool_iff in Hq'; congruence).
      apply Qnot_le_lt in Hn. rewrite <- Hcp. lra.
    + change (preloadedAudioBase64 (set_context s)) with (preloadedAudioBase64 s).
      destruct (preloadedAudioBase64 s) as [d|].
      * destruct (String.eqb d ""); [exact Hs|]. apply decodeAndPlay_bounds; [exact Hs|exact Hb].
      * exact Hs.
Qed.

Lemma fetchDone_bounds o s : player_inv s -> player_bounds s -> player_bounds (fetchDone o s).
Proof.
  intros Hi Hs. unfold fetchDone. destruct (isLoadingAudio s) eqn:Hl; [|exact Hs].
  destruct Hi as [_ [_ [H3 _]]]. destruct (H3 Hl) as [_ [_ Hb]].
  destruct o as [d|e]; [|exact Hs]. apply decodeAndPlay_bounds; [exact Hs|exact Hb].
Qed.

Lemma preload_bounds d s : player_bounds s -> player_bounds (set_preloaded d s).
Proof. intros H. exact H. Qed.

Lemma tick_bounds s : player_bounds s -> player_bounds (tick s).
Proof.
  intros Hs. unfold tick. destruct (audioContext s && isPlaying s)%bool eqn:E; [|exact Hs].
  apply andb_true_iff in E as [_ Hpl].
  destruct Hs as [Hd [Hlen [Hnone [Hp [Hc [Hpe Hst]]]]]].
  pose proof (Hpe Hpl) as E1.
  unfold player_bounds, set_currentTime; simpl.
  split; [exact Hd|]. split; [exact Hlen|]. split.
  { intros Hb. destruct (Hnone Hb) as [_ [_ [_ [_ Hf]]]]. congruence. }
  split; [exact Hp|]. split; [apply Q.min_glb; lra|].
  split; [exact Hpe|exact Hst].
Qed.

Lemma advance_bounds dt s :
  0 <= dt -> player_inv s -> player_bounds s -> player_bounds (advance dt s).
Proof.
  intros Hdt Hi Hs. destruct Hs as [Hd [Hlen [Hnone [Hp [Hc [Hpe Hst]]]]]].
  unfold player_bounds, advance; simpl.
  destruct (fires dt s) eqn:Hf; simpl.
  - split; [exact Hd|]. split; [exact Hlen|].
    split; [intros Hb; destruct (Hnone Hb) as [_ [_ [Hj _]]]|].
    + unfold fires in Hf. rewrite Hj in Hf.
      exfalso. apply existsb_exists in Hf as [? [_ Hf]]. discriminate.
    + split; [lra|]. split; [lra|]. split; [discriminate|exact Hst].
  - split; [exact Hd|]. split; [exact Hlen|].
    split; [intros Hb; destruct (Hnone Hb) as [A [B [C [D E]]]]; auto|].
    split; [exact Hp|]. split; [exact Hc|]. split; [|exact Hst].
    intros Hpl. pose proof (Hpe Hpl) as E1. lra.
Qed.

Lemma step_bounds e s :
  forward [e] = true -> player_inv s -> player_bounds s -> player_bounds (step e s).
Proof.
  intros Hf Hi Hs. destruct e as [| o | d | dt |]; simpl.
  - apply click_bounds; assumption.
  - apply fetchDone_bounds; assumption.
  - apply preload_bounds; assumption.
  - simpl in Hf. rewrite andb_true_r in Hf. apply Qle_bool_iff in Hf.
    apply advance_bounds; assumption.
  - apply tick_bounds; assumption.
Qed.

Lemma run_bounds es s :
  forward es = true -> player_inv s -> player_bounds s -> player_bounds (run es s).
Proof.
  revert s. induction es as [|e es IH]; intros s Hf Hi Hs; [exact Hs|].
  simpl in Hf. apply andb_true_iff in Hf as [He Hf].
  apply (IH (step e s) Hf (step_inv e s Hi)).
  apply step_bounds; [simpl; rewrite He; reflexivity|assumption|assumption].
Qed.

Lemma reachable_bounds es : forward es = true -> player_bounds (run es initPlayer).
Proof. intros Hf. apply run_bounds; [exact Hf|apply init_inv|apply init_bounds]. Qed.

(** Extra (playback bounds): in every session reached by clicks, fetch
    results, prefetches, animation frames and forward steps of time, every
    offset passed to [source.start] lies in [0, duration), the shown time,
    the stored offset and the elapsed time while playing are not negative,
    and a decoded buffer has a positive duration. *)
Theorem player_offsets_in_range (es : list event) (Hf : forward es = true) :
  let s := run es initPlayer in
  (forall off, In off (starts s) -> 0 <= off /\ off < duration s) /\
  0 <= currentTime s /\ 0 <= pausedTimeRef s /\
  (isPlaying s = true -> 0 <= clock s - startTimeRef s) /\
  (forall b, audioBuffer s = Some b -> 0 < duration s).
Proof.
  intros s. pose proof (reachable_bounds es Hf) as Hb. pose proof (reachable_inv es) as Hi.
  fold s in Hb, Hi.
  destruct Hb as [Hd [Hlen [Hnone [Hp [Hc [Hpe Hst]]]]]].
  split; [exact Hst|]. split; [exact Hc|]. split; [exact Hp|]. split; [exact Hpe|].
  intros b Hbb. destruct Hi as [_ [_ [_ [_ H5]]]]. rewrite (H5 b Hbb).
  apply buffer_duration_pos, Hlen, Hbb.
Qed.

Lemma dead_run es' s d :
  audioBuffer s = None -> preloadedAudioBase64 s = Some d -> d <> ""%string ->
  decodeAudio d = None -> isLoadingAudio s = false -> isPlaying s = false ->
  sourceNodeRef s = None -> no_preload es' = true ->
  let s' := run es' s in
  audioBuffer s' = None /\ preloadedAudioBase64 s' = Some d /\ isLoadingAudio s' = false /\
  isPlaying s' = false /\ sourceNodeRef s' = None /\ starts s' = starts s.
Proof.
  revert s. induction es' as [|e es' IH]; intros s Hb Hpre Hd Hdec Hl Hp Hj Hno;
    [simpl; auto 7|].
  simpl in Hno. apply andb_true_iff in Hno as [He Hno].
  change (run (e :: es') s) with (run es' (step e s)).
  destruct e as [| o | d' | dt |]; cbn [step]; try discriminate.
  - assert (E : handlePlayAudio s = set_context s).
    { unfold handlePlayAudio. rewrite Hl, Hp. cbv zeta.
      change (audioBuffer (set_context s)) with (audioBuffer s). rewrite Hb.
      change (preloadedAudioBase64 (set_context s)) with (preloadedAudioBase64 s). rewrite Hpre.
      apply String.eqb_neq in Hd. rewrite Hd. unfold decodeAndPlay. rewrite Hdec. reflexivity. }
    rewrite E. exact (IH (set_context s) Hb Hpre Hd Hdec Hl Hp Hj Hno).
  - rewrite (fetchDone_idle o s Hl). apply IH; assumption.
  - assert (Hf : fires dt s = false) by (unfold fires; rewrite Hj; induction (filter _ (timeouts s)); simpl; auto).
    destruct (IH (advance dt s)) as [A [B [C [D [E F]]]]];
      unfold advance in *; simpl in *; rewrite ?Hf in *; auto 7.
  - rewrite (tick_idle s Hp). apply IH; assumption.
Qed.

(** Extra (undecodable prefetched audio): when the prefetched audio is a
    non-empty string that does not decode to a non-empty buffer, no buffer
    exists yet and no narration request is pending (not loading), then, as
    long as no further prefetch result is stored (the prefetch effect runs
    again only when the summary changes, and fetches only when nothing is
    stored), the play button never plays and never fetches again: each
    click fails to decode the same data. *)
Theorem undecodable_preload_never_plays (es es' : list event) (d : string)
  (Hf : forward es = true)
  (Hb : audioBuffer (run es initPlayer) = None)
  (Hpre : preloadedAudioBase64 (run es initPlayer) = Some d)
  (Hd : d <> ""%string) (Hdec : decodeAudio d = None)
  (Hl : isLoadingAudio (run es initPlayer) = false)
  (Hno : no_preload es' = true) :
  let s' := run es' (run es initPlayer) in
  starts s' = starts (run es initPlayer) /\ starts s' = [] /\
  isPlaying s' = false /\ isLoadingAudio s' = false /\ audioBuffer s' = None.
Proof.
  pose proof (reachable_bounds es Hf) as [_ [_ [Hnone _]]].
  destruct (Hnone Hb) as [_ [_ [Hj [Hs0 Hp]]]].
  destruct (dead_run es' (run es initPlayer) d Hb Hpre Hd Hdec Hl Hp Hj Hno)
    as [A [B [C [D [E F]]]]].
  simpl. rewrite F, Hs0. auto.
Qed.

(** Extra (on-demand narration): with no buffer and no prefetched audio, a
    click starts a request (loading, nothing playing) and further clicks do
    nothing while it is pending; a failed request or undecodable audio ends
    loading with nothing played, and the next click requests again; decodable
    audio is stored as the buffer and played from offset 0. *)
Theorem on_demand_fetch (es : list event) (Hf : forward es = true)
  (Hb : audioBuffer (run es initPlayer) = None)
  (Hpre : preloadedAudioBase64 (run es initPlayer) = None)
  (Hl : isLoadingAudio (run es initPlayer) = false) :
  let s1 := step Click (run es initPlayer) in
  isLoadingAudio s1 = true /\ isPlaying s1 = false /\ starts s1 = [] /\
  step Click s1 = s1 /\
  (forall e, let s2 := step (FetchDone (Rejected e)) s1 in
     isLoadingAudio s2 = false /\ isPlaying s2 = false /\ starts s2 = [] /\
     isLoadingAudio (step Click s2) = true) /\
  (forall d, decodeAudio d = None -> let s2 := step (FetchDone (Resolved d)) s1 in
     isLoadingAudio s2 = false /\ isPlaying s2 = false /\ starts s2 = [] /\
     isLoadingAudio (step Click s2) = true) /\
  (forall d b, decodeAudio d = Some b -> let s2 := step (FetchDone (Resolved d)) s1 in
     isLoadingAudio s2 = false /\ isPlaying s2 = true /\ audioBuffer s2 = Some b /\
     duration s2 = Pcm.buffer_duration b /\ starts s2 = [0]).
Proof.
  pose proof (reachable_bounds es Hf) as [_ [_ [Hnone _]]].
  destruct (Hnone Hb) as [_ [_ [Hj [Hs0 Hp]]]].
  set (s := run es initPlayer) in *.
  assert (E1 : step Click s = set_loading true (set_context s)).
  { simpl. unfold handlePlayAudio. rewrite Hl, Hp. cbv zeta.
    change (audioBuffer (set_context s)) with (audioBuffer s). rewrite Hb.
    change (preloadedAudioBase64 (set_context s)) with (preloadedAudioBase64 s).
    rewrite Hpre. reflexivity. }
  cbv zeta. rewrite E1.
  split; [reflexivity|]. split; [exact Hp|]. split; [exact Hs0|].
  split; [reflexivity|].
  assert (Hidle : forall s2, isLoadingAudio s2 = false -> isPlaying s2 = false ->
            audioBuffer s2 = None -> preloadedAudioBase64 s2 = None ->
            isLoadingAudio (step Click s2) = true).
  { intros s2 A B C D. simpl. unfold handlePlayAudio. rewrite A, B. cbv zeta.
    change (audioBuffer (set_context s2)) with (audioBuffer s2). rewrite C.
    change (preloadedAudioBase64 (set_context s2)) with (preloadedAudioBase64 s2).
    rewrite D. reflexivity. }
  split; [|split].
  - intros e. cbn [step]. unfold fetchDone. simpl.
    repeat split; try assumption. apply Hidle; simpl; auto.
  - intros d Hdec. cbn [step]. unfold fetchDone. simpl. unfold decodeAndPlay. rewrite Hdec.
    repeat split; try assumption. apply Hidle; simpl; auto.
  - intros d b Hdec. cbn [step]. unfold fetchDone. simpl. unfold decodeAndPlay. rewrite Hdec.
    unfold playBuffer; simpl. rewrite Hs0. auto.
Qed.

Lemma player_offsets_in_range_witness :
  starts (run [Preload exampleAudio; Click; Advance (1#100000); Click; Click] initPlayer) =
    [0; 1#100000] /\
  (forall off, In off (starts (run [Preload exampleAudio; Click; Advance (1#100000); Click; Click]
                                   initPlayer)) ->
     0 <= off /\
     off < duration (run [Preload exampleAudio; Click; Advance (1#100000); Click; Click] initPlayer)).
Proof.
  split; [vm_compute; reflexivity|].
  exact (proj1 (player_offsets_in_range [Preload exampleAudio; Click; Advance (1#100000); Click; Click]
                  ltac:(vm_compute; reflexivity))).
Defined.

(** One byte of audio decodes to no sample. *)
Lemma undecodable_preload_never_plays_witness :
  isPlaying (run [Click; Advance 1; Click; Tick; FetchDone (Resolved exampleAudio)]
               (run [Preload "AA=="%string] initPlayer)) = false /\
  starts (run [Click; Advance 1; Click; Tick; FetchDone (Resolved exampleAudio)]
            (run [Preload "AA=="%string] initPlayer)) = [].
Proof.
  pose proof (undecodable_preload_never_plays [Preload "AA=="%string]
    [Click; Advance 1; Click; Tick; FetchDone (Resolved exampleAudio)] "AA=="%string
    ltac:(vm_compute; reflexivity) ltac:(vm_compute; reflexivity) ltac:(vm_compute; reflexivity)
    ltac:(discriminate) ltac:(vm_compute; reflexivity) ltac:(vm_compute; reflexivity)
    ltac:(vm_compute; reflexivity)) as H.
  cbv zeta in H. destruct H as [_ [A [B _]]]. split; assumption.
Defined.

Lemma on_demand_fetch_witness :
  isLoadingAudio (step Click (run [Advance 1; Tick] initPlayer)) = true /\
  starts (step (FetchDone (Resolved exampleAudio)) (step Click (run [Advance 1; Tick] initPlayer))) = [0].
Proof.
  pose proof (on_demand_fetch [Advance 1; Tick] ltac:(vm_compute; reflexivity)
    ltac:(vm_compute; reflexivity) ltac:(vm_compute; reflexivity) ltac:(vm_compute; reflexivity)) as H.
  cbv zeta in H. destruct H as [A [_ [_ [_ [_ [_ H]]]]]]. split; [exact A|].
  destruct (decodeAudio exampleAudio) as [b|] eqn:E; [|vm_compute in E; discriminate].
  exact (proj2 (proj2 (proj2 (proj2 (H exampleAudio b E))))).
Defined.

End PlayerBoundsProofs.

Module DashboardProofs.

Import Orchestrator Dashboard.

Local Open Scope Q_scope.

Lemma Qfloor_unique z x : inject_Z z <= x -> x < inject_Z z + 1 -> Qfloor x = z.
Proof.
  intros H1 H2. pose proof (Qfloor_le x) as F1. pose proof (Qlt_floor x) as F2.
  rewrite inject_Z_plus in F2. change (inject_Z 1) with 1 in F2.
  assert (A : (z < Qfloor x + 1)%Z).
  { rewrite Zlt_Qlt, inject_Z_plus. change (inject_Z 1) with 1. lra. }
  assert (B : (Qfloor x < z + 1)%Z).
  { rewrite Zlt_Qlt, inject_Z_plus. change (inject_Z 1) with 1. lra. }
  lia.
Qed.

Lemma Qfloor_div60 s : Qfloor (s / 60) = (Qfloor s / 60)%Z.
Proof.
  set (n := Qfloor s). pose proof (Qfloor_le s) as F1. pose proof (Qlt_floor s) as F2.
  fold n in F1, F2. rewrite inject_Z_plus in F2. change (inject_Z 1) with 1 in F2.
  pose proof (Z.div_mod n 60 ltac:(lia)) as Dm. pose proof (Z.mod_pos_bound n 60 ltac:(lia)) as Mb.
  set (m := (n / 60)%Z) in *. set (r := (n mod 60)%Z) in *.
  assert (E : inject_Z n == 60 * inject_Z m + inject_Z r).
  { rewrite Dm at 1. rewrite inject_Z_plus, inject_Z_mult. reflexivity. }
  assert (R1 : 0 <= inject_Z r) by (change 0 with (inject_Z 0); rewrite <- Zle_Qle; lia).
  assert (R2 : inject_Z r + 1 <= 60)
    by (change 60 with (inject_Z 60); change 1 with (inject_Z 1); rewrite <- inject_Z_plus, <- Zle_Qle; lia).
  apply Qfloor_unique.
  - apply Qle_shift_div_l; [reflexivity|]. lra.
  - apply Qlt_shift_div_r; [reflexivity|]. lra.
Qed.

Lemma Qfloor_rem60 s : 0 <= s -> Qfloor (js_rem s 60) = (Qfloor s mod 60)%Z.
Proof.
  intros Hs. unfold js_rem, js_trunc.
  assert (Hq : Qle_bool 0 (s / 60) = true).
  { apply Qle_bool_iff. apply Qle_shift_div_l; [reflexivity|]. lra. }
  rewrite Hq, Qfloor_div60.
  set (n := Qfloor s). pose proof (Qfloor_le s) as F1. pose proof (Qlt_floor s) as F2.
  fold n in F1, F2. rewrite inject_Z_plus in F2. change (inject_Z 1) with 1 in F2.
  pose proof (Z.div_mod n 60 ltac:(lia)) as Dm.
  set (m := (n / 60)%Z) in *. set (r := (n mod 60)%Z) in *.
  assert (E : inject_Z n == 60 * inject_Z m + inject_Z r).
  { rewrite Dm at 1. rewrite inject_Z_plus, inject_Z_mult. reflexivity. }
  apply Qfloor_unique; lra.
Qed.

Lemma pad_two_digits k : (0 <= k < 60)%Z ->
  padStart 2 "0" (numberToString k) = two_digits k.
Proof.
  intros Hk.
  assert (Hall : forallb (fun k => String.eqb (padStart 2 "0" (numberToString k)) (two_digits k))
                   (map Z.of_nat (seq 0 60)) = true) by (vm_compute; reflexivity).
  rewrite forallb_forall in Hall.
  apply String.eqb_eq, Hall, in_map_iff. exists (Z.to_nat k). split; [lia|].
  apply in_seq. lia.
Qed.

(** Extra (time display): for every non-negative time, [formatTime] prints
    the whole minutes, a colon, and the remaining whole seconds as exactly
    two digits (0 to 59). *)
Theorem formatTime_spec (seconds : Q) (H : 0 <= seconds) :
  formatTime seconds =
    (numberToString (Qfloor seconds / 60) ++ ":" ++ two_digits (Qfloor seconds mod 60))%string.
Proof.
  unfold formatTime. rewrite Qfloor_div60, Qfloor_rem60 by exact H.
  rewrite pad_two_digits by (apply Z.mod_pos_bound; lia). reflexivity.
Qed.

Lemma formatTime_spec_witness : formatTime (754 # 10) = "1:15"%string.
Proof.
  rewrite (formatTime_spec (754 # 10) ltac:(unfold Qle; simpl; lia)).
  vm_compute. reflexivity.
Defined.

Local Open Scope Z_scope.

(** Extra (dashboard metrics): the BMI score is 95, 75, 70 or 50; the risk
    score stays in [20, 100] and reaches its floor of 20 exactly from 6
    risks on, below which it is 100 - 15 per risk; the strength score stays
    in [50, 100], capped exactly from 5 strengths on; the routine score stays
    in [60, 100], capped exactly from 8 activities on. *)
Theorem calculateMetrics_ranges (r : HealthReport) :
  let m := calculateMetrics r in
  In (bmiScore m) [95; 75; 70; 50] /\
  20 <= riskScore m <= 100 /\ 50 <= strengthScore m <= 100 /\ 60 <= routineScore m <= 100 /\
  (riskScore m = 20 <-> (6 <= length (potentialRisks r))%nat) /\
  (strengthScore m = 100 <-> (5 <= length (keyStrengths r))%nat) /\
  (routineScore m = 100 <-> (8 <= length (dailyRoutine r))%nat) /\
  ((length (potentialRisks r) < 6)%nat ->
     riskScore m = 100 - 15 * Z.of_nat (length (potentialRisks r))).
Proof.
  unfold calculateMetrics. cbv zeta. cbn [bmiScore riskScore strengthScore routineScore].
  split.
  - destruct (String.eqb _ "Normal"); [simpl; tauto|].
    destruct (String.eqb _ "Overweight"); [simpl; tauto|].
    destruct (String.eqb _ "Underweight"); simpl; tauto.
  - repeat split; intros; lia.
Qed.

Lemma calculateMetrics_ranges_witness : riskScore (calculateMetrics exampleReport) = 85.
Proof.
  pose proof (calculateMetrics_ranges exampleReport) as H. cbv zeta in H.
  destruct H as [_ [_ [_ [_ [_ [_ [_ H]]]]]]].
  rewrite (H ltac:(simpl; lia)). vm_compute. reflexivity.
Defined.

End DashboardProofs.
